(** * node-losh: command binding, placeholder substitution, form filling,
      sequential runner and command registry (src/bin/losh.js,
      src/unnamed/part_003). *)

From Stdlib Require Import Ascii String Lia.
From stdpp Require Import base list gmap strings.

(** JavaScript strings are modelled as lists of (ASCII) characters. *)
Abbreviation str := (list ascii).

Definition lit (s : string) : str := list_ascii_of_string s.

(** Exceptions thrown by the code. *)
Inductive js_error :=
| ReplaceLoshError
| TypeError
| LoshError (msg : str).

(** ** A backtracking matcher for the regular expressions of the source

    The source uses the regular expressions
    [/\{\{( [^!a-zA-Z0-9]* )(!?[a-zA-Z0-9]+)( [^!a-zA-Z0-9]* )\}\}/g]
    (spaces added here only) and
    [/@(!?[a-z]+)/g].  They are sequences of a literal character, a greedy
    starred or plussed character class, a greedy optional character, and
    capture-group brackets; [run] is the backtracking semantics of
    ECMAScript for such sequences: a greedy quantifier first tries the
    longest run and gives characters back one by one on failure. *)
Module Regex.

Inductive atom :=
| AChar (c : ascii)
| AStar (p : ascii -> bool)
| APlus (p : ascii -> bool)
| AOpt (c : ascii)
| AOpen (g : nat)
| AClose (g : nat).

Fixpoint span (p : ascii -> bool) (s : str) : nat :=
  match s with
  | [] => 0
  | c :: s' => if p c then S (span p s') else 0
  end.

(** [n; n-1; ...; 1] *)
Fixpoint countdown1 (n : nat) : list nat :=
  match n with
  | 0 => []
  | S k => S k :: countdown1 k
  end.

Fixpoint first_some {A} (f : nat -> option A) (l : list nat) : option A :=
  match l with
  | [] => None
  | j :: l' => match f j with Some r => Some r | None => first_some f l' end
  end.

Fixpoint assoc (g : nat) (l : list (nat * str)) : option str :=
  match l with
  | [] => None
  | (g', v) :: l' => if Nat.eqb g g' then Some v else assoc g l'
  end.

Definition caps := list (nat * str).

(** [run r s opens cs]: match [r] at the start of [s]; on success the
    unconsumed rest of [s] and the captured groups. *)
Fixpoint run (r : list atom) (s : str) (opens cs : caps) : option (str * caps) :=
  match r with
  | [] => Some (s, cs)
  | AChar c :: r' =>
      match s with
      | c' :: s' => if ascii_dec c c' then run r' s' opens cs else None
      | [] => None
      end
  | AStar p :: r' =>
      first_some (fun j => run r' (drop j s) opens cs) (countdown1 (span p s) ++ [0])
  | APlus p :: r' =>
      first_some (fun j => run r' (drop j s) opens cs) (countdown1 (span p s))
  | AOpt c :: r' =>
      match s with
      | c' :: s' =>
          if ascii_dec c c' then
            match run r' s' opens cs with
            | Some x => Some x
            | None => run r' s opens cs
            end
          else run r' s opens cs
      | [] => run r' s opens cs
      end
  | AOpen g :: r' => run r' s ((g, s) :: opens) cs
  | AClose g :: r' =>
      match assoc g opens with
      | Some s0 => run r' s opens ((g, take (length s0 - length s) s0) :: cs)
      | None => run r' s opens cs
      end
  end.

(** Captured text of group [g] ([undefined] is never produced by the two
    expressions of the source: all their groups take part in every match). *)
Definition group (g : nat) (cs : caps) : str :=
  match assoc g cs with Some v => v | None => [] end.

(** [String.prototype.replace] with a global expression and a replacer
    function follows ECMAScript: the matches are collected first (the
    [exec] loop from [lastIndex = 0]; after an empty match [lastIndex]
    advances by one), then the text is assembled from the unmatched
    characters and the replacer's result for each match.  A [piece] is
    one unmatched character or one match (matched text and groups).
    [skip] is the number of characters of the current match still to be
    passed before [lastIndex] is reached. *)
Inductive piece :=
| PText (c : ascii)
| PMatch (sub : str) (cs : caps).

Fixpoint scan (re : list atom) (s : str) (skip : nat) : list piece :=
  match skip with
  | S k =>
      match s with
      | _ :: s' => scan re s' k
      | [] => []
      end
  | 0 =>
      match run re s [] [] with
      | Some (rest, cs) =>
          let len := length s - length rest in
          PMatch (take len s) cs ::
          match len, s with
          | 0, [] => []
          | 0, c :: s' => PText c :: scan re s' 0
          | S k, _ :: s' => scan re s' k
          | S _, [] => []
          end
      | None =>
          match s with
          | [] => []
          | c :: s' => PText c :: scan re s' 0
          end
      end
  end.

(** The replacer returns the replacement text and whether it set the
    flag [breaked] shared by the replacers of one call (it is only ever
    set to [true]); the result is the new text and the final flag. *)
Fixpoint assemble (cb : str -> caps -> str * bool) (ps : list piece) : str * bool :=
  match ps with
  | [] => ([], false)
  | PText c :: ps' => let '(o, f) := assemble cb ps' in (c :: o, f)
  | PMatch sub cs :: ps' =>
      let '(r, b) := cb sub cs in
      let '(o, f) := assemble cb ps' in (r ++ o, b || f)
  end.

Definition replace_all (re : list atom) (cb : str -> caps -> str * bool) (s : str) :=
  assemble cb (scan re s 0).

End Regex.

Import Regex.

(** ** Character classes *)

Definition in_range (lo hi : ascii) (c : ascii) : bool :=
  (Nat.leb (nat_of_ascii lo) (nat_of_ascii c) && Nat.leb (nat_of_ascii c) (nat_of_ascii hi))%bool.

(** [[a-zA-Z0-9]] *)
Definition alnum (c : ascii) : bool :=
  (in_range "a" "z" c || in_range "A" "Z" c || in_range "0" "9" c)%bool.

(** [[^!a-zA-Z0-9]] *)
Definition decor (c : ascii) : bool :=
  negb (Ascii.eqb c "!" || alnum c)%bool.

(** [[a-z]] *)
Definition lower (c : ascii) : bool := in_range "a" "z" c.

(** The bag placeholder expression of [Executable.replace]. *)
Definition re_bag : list atom :=
  [AChar "{"; AChar "{";
   AOpen 1; AStar decor; AClose 1;
   AOpen 2; AOpt "!"; APlus alnum; AClose 2;
   AOpen 3; AStar decor; AClose 3;
   AChar "}"; AChar "}"].

(** [@(!?[a-z]+)] *)
Definition re_path : list atom :=
  [AChar "@"; AOpen 1; AOpt "!"; APlus lower; AClose 1].

(** ** Executable.replace (src/bin/losh.js) *)

(** JavaScript truthiness of a looked-up string: [undefined] and [''] are
    falsy. *)
Definition truthy (o : option str) : bool :=
  match o with Some (_ :: _) => true | _ => false end.

Definition starts_bang (s : str) : bool :=
  match s with "!"%char :: _ => true | _ => false end.

(** A bag and the path table are plain objects: their own properties
    are the entries of a [gmap str str], and a read [obj[k]] of a key
    without own entry finds the property [Object.prototype] has under
    that name, if any. *)

(** A value read from a plain object: an own string, a function of
    [Object.prototype] (its name and its [length]) or, under
    [__proto__], [Object.prototype] itself. *)
Inductive jsval :=
| JStr (s : str)
| JFun (name : str) (arity : nat)
| JProtoObj.

(** The properties of [Object.prototype]. *)
Definition proto_props : list (str * jsval) :=
  [(lit "constructor", JFun (lit "Object") 1);
   (lit "__defineGetter__", JFun (lit "__defineGetter__") 2);
   (lit "__defineSetter__", JFun (lit "__defineSetter__") 2);
   (lit "hasOwnProperty", JFun (lit "hasOwnProperty") 1);
   (lit "__lookupGetter__", JFun (lit "__lookupGetter__") 1);
   (lit "__lookupSetter__", JFun (lit "__lookupSetter__") 1);
   (lit "isPrototypeOf", JFun (lit "isPrototypeOf") 1);
   (lit "propertyIsEnumerable", JFun (lit "propertyIsEnumerable") 1);
   (lit "toString", JFun (lit "toString") 0);
   (lit "valueOf", JFun (lit "valueOf") 0);
   (lit "__proto__", JProtoObj);
   (lit "toLocaleString", JFun (lit "toLocaleString") 0)].

Fixpoint lookup_prop (k : str) (l : list (str * jsval)) : option jsval :=
  match l with
  | [] => None
  | (n, v) :: l' => if bool_decide (k = n) then Some v else lookup_prop k l'
  end.

(** [obj[k]] on a plain object; [undefined] is [None]. *)
Definition js_get (m : gmap str str) (k : str) : option jsval :=
  match m !! k with
  | Some v => Some (JStr v)
  | None => lookup_prop k proto_props
  end.

(** [obj[k] = v] with a string [v] on a plain object: the accessor
    [__proto__] ignores a value that is not an object, any other key gets
    an own entry. *)
Definition js_set (m : gmap str str) (k v : str) : gmap str str :=
  if bool_decide (k = lit "__proto__") then m else <[k := v]> m.

(** [String(v)], as [+] and [String.prototype.replace] convert a value. *)
Definition js_string (v : jsval) : str :=
  match v with
  | JStr s => s
  | JFun n _ => lit "function " ++ n ++ lit "() { [native code] }"
  | JProtoObj => lit "[object Object]"
  end.

(** JavaScript truthiness: only the empty string is falsy here. *)
Definition js_truthy (v : jsval) : bool :=
  match v with
  | JStr s => truthy (Some s)
  | _ => true
  end.

(** [(bag[selected]) ? args[0] + bag[selected] + args[2] : ''] *)
Definition fill (b : gmap str str) (selected : str) (cs : caps) : str :=
  match js_get b selected with
  | Some v => if js_truthy v then group 1 cs ++ js_string v ++ group 3 cs else []
  | None => []
  end.

(** Replacer of the bag pass; the boolean is [breaked = true]. *)
Definition bag_cb (b : gmap str str) (substring : str) (cs : caps) : str * bool :=
  let selected := group 2 cs in
  if starts_bang selected then
    let selected := tail selected in
    match js_get b selected with
    | None => ([], true)
    | Some _ => (fill b selected cs, false)
    end
  else (fill b selected cs, false).

(** Replacer of the path-macro pass over [this.system.paths]; a returned
    function is converted to its text by [replace]. *)
Definition path_cb (paths : gmap str str) (substring : str) (cs : caps) : str * bool :=
  let selected := group 1 cs in
  if starts_bang selected then
    match js_get paths (tail selected) with
    | Some v => if js_truthy v then (js_string v, false) else ([], true)
    | None => ([], true)
    end
  else (match js_get paths selected with
        | Some v => if js_truthy v then js_string v else substring
        | None => substring
        end, false).

(** [replace(content, bag, strict)]: [Ok (Some s)] is a returned string,
    [Ok None] is [null], [Exn ReplaceLoshError] the thrown error. *)
Inductive result (A : Type) :=
| Ok (a : A)
| Exn (e : js_error).
Arguments Ok {A} a.
Arguments Exn {A} e.

Definition replace (paths : gmap str str) (content : str) (b : gmap str str)
    (strict : bool) : result (option str) :=
  let '(content, breaked) := replace_all re_bag (bag_cb b) content in
  if breaked then (if strict then Exn ReplaceLoshError else Ok None)
  else
    let '(content, breaked') := replace_all re_path (path_cb paths) content in
    if breaked || breaked' then (if strict then Exn ReplaceLoshError else Ok None)
    else Ok (Some content).

(** ** Parameters and argument binding: the [params] getter and
    [Executable.run] (src/bin/losh.js) *)

(** A declared parameter entry: the source accepts a bare name or a tuple
    [[name, description?, options?, fallback?]]; [options] is an array or a
    single string. *)
Inductive decl :=
| DBare (name : str)
| DTuple (name : str) (description : option str)
    (options : option (list str + str)) (fallback : option str).

Record param := {
  p_name : str;
  p_required : bool;
  p_description : option str;
  p_options : option (list str);
  p_fallback : option str;
  p_usage : str
}.

Definition or_null (o : option str) : option str :=
  if truthy o then o else None.

Fixpoint join_bar (l : list str) : str :=
  match l with
  | [] => []
  | [x] => x
  | x :: l' => x ++ lit "|" ++ join_bar l'
  end.

(** One step of the [for (const value of params)] loop.  For a bare name
    the statement [value = [value]] assigns to the [const] loop variable
    and throws a [TypeError]. *)
Definition parse_param (d : decl) : result param :=
  match d with
  | DBare _ => Exn TypeError
  | DTuple name description options fallback =>
      let required := starts_bang name in
      let pname := if required then tail name else name in
      let opts := match options with
                  | Some (inl l) => Some l
                  | Some (inr o) => if truthy (Some o) then Some [o] else None
                  | None => None
                  end in
      let fb := or_null fallback in
      let usage := match opts with Some l => join_bar l | None => pname end in
      let usage := usage ++ match fb with Some f => lit "=" ++ f | None => [] end in
      let usage := if required then lit "<" ++ usage ++ lit ">"
                   else lit "[" ++ usage ++ lit "]" in
      Ok {| p_name := pname; p_required := required;
            p_description := or_null description; p_options := opts;
            p_fallback := fb; p_usage := usage |}
  end.

(** The [params] getter: [factory.params], or [[]] when there is none. *)
Fixpoint parse_params (ds : list decl) : result (list param) :=
  match ds with
  | [] => Ok []
  | d :: ds' =>
      match parse_param d with
      | Exn e => Exn e
      | Ok p => match parse_params ds' with
                | Exn e => Exn e
                | Ok ps => Ok (p :: ps)
                end
      end
  end.

(** A value stored in the [this.args] object: a string or [null]
    ([None]), or the overflow array [_]. *)
Inductive argv :=
| AStr (v : option str)
| AArr (l : list str).

Definition overflow_key : str := lit "_".

(** [x === null] *)
Definition is_null (v : option str) : bool :=
  match v with None => true | Some _ => false end.

(** [args[i] || this.params[i].fallback] *)
Definition resolve_arg (p : param) (a : option str) : option str :=
  if truthy a then a else p_fallback p.

(** Outcome of the binding loop: the bound [this.args] object together
    with the log of the parameter positions written and the values written
    there, or the early [return] on a missing required argument (the
    name is the one printed for [!argument]), or a thrown exception. *)
Inductive bind_outcome :=
| Bound (obj : gmap str argv) (writes : list (nat * option str))
| MissingArgument (name : str)
| BindThrow (e : js_error).

(** The body of [for (let i = 0; i < max; i++)]; [n] counts the
    remaining iterations. *)
Fixpoint bind_loop (ps : list param) (args : list str) (i n : nat)
    (obj : gmap str argv) (writes : list (nat * option str)) : bind_outcome :=
  match n with
  | 0 => Bound obj writes
  | S n' =>
      match ps !! i with
      | Some p =>
          let v := resolve_arg p (args !! i) in
          let obj := <[p_name p := AStr v]> obj in
          if p_required p && is_null v then MissingArgument (p_name p)
          else bind_loop ps args (S i) n' obj (writes ++ [(i, v)])
      | None =>
          (* here i >= length ps, so i < length args *)
          match obj !! overflow_key with
          | Some (AArr l) =>
              bind_loop ps args (S i) n'
                (<[overflow_key := AArr (l ++ [default [] (args !! i)])]> obj) writes
          | _ => BindThrow TypeError
          end
      end
  end.

(** Result of [Executable.run(args)]: the early return on a missing
    argument, a rejection, or the call of the command body (the native
    function or the shell script) with the bound [this.args]. *)
Inductive run_result :=
| RunMissing (name : str)
| RunThrow (e : js_error)
| RunBody (obj : gmap str argv).

Definition init_args : gmap str argv := {[ overflow_key := AArr [] ]}.

Definition bind (ps : list param) (args : list str) : bind_outcome :=
  if Nat.eqb (length ps) 0 then Bound init_args []
  else bind_loop ps args 0 (if length args <? length ps then length ps else length args)
         init_args [].

(** [run] for a command whose declared parameter list is [ds]. *)
Definition run (ds : list decl) (args : list str) : run_result :=
  match parse_params ds with
  | Exn e => RunThrow e
  | Ok ps =>
      match bind ps args with
      | MissingArgument n => RunMissing n
      | BindThrow e => RunThrow e
      | Bound obj _ => RunBody obj
      end
  end.

(** ** The sequential runner [Executable.for(list, factory)]
    (src/unnamed/part_003) *)

Module Runner.
Section Runner.

(** Items of the list, values and rejection reasons of the promises, and
    JavaScript's [undefined] among the values. *)
Variables (Item V E : Type) (undef : V).

Inductive settled :=
| Fulfilled (v : V)
| Rejected (e : E).

(** A settled promise of the chain together with the calls of [factory]
    made to settle it, in order: the index of the item and the outcome
    of the promise that call returned. *)
Record promise := {
  calls : list (nat * settled);
  state : settled
}.

(** [factory(item, index)] for the first item, and
    [factory.bind(null, item, index)] run by [.then] with the previous
    value as third argument; [factory] returns a promise settling to the
    given outcome. *)
Variable factory : Item -> nat -> option V -> settled.

Definition call (x : Item) (i : nat) (prev : option V) : promise :=
  let o := factory x i prev in {| calls := [(i, o)]; state := o |}.

(** [p.then(k)]: [k] runs only once [p] is fulfilled; a rejection is
    passed on unchanged. *)
Definition then_ (p : promise) (k : V -> promise) : promise :=
  match state p with
  | Fulfilled v => let q := k v in {| calls := calls p ++ calls q; state := state q |}
  | Rejected _ => p
  end.

(** [Promise.resolve()] *)
Definition resolved : promise := {| calls := []; state := Fulfilled undef |}.

(** The loop [for (const index in list)] building the chain. *)
Fixpoint chain (l : list Item) (i : nat) (p : option promise) : option promise :=
  match l with
  | [] => p
  | x :: l' =>
      let p' := match p with
                | None => call x i None
                | Some q => then_ q (fun v => call x i (Some v))
                end in
      chain l' (S i) (Some p')
  end.

(** [return promise || Promise.resolve()] *)
Definition for_ (l : list Item) : promise :=
  match chain l 0 None with
  | Some p => p
  | None => resolved
  end.

End Runner.

Arguments Fulfilled {V E} v.
Arguments Rejected {V E} e.
Arguments Build_promise {V E} calls state.
Arguments calls {V E} p.
Arguments state {V E} p.
Arguments call {Item V E} factory x i prev.
Arguments then_ {V E} p k.
Arguments resolved {V E} undef.
Arguments chain {Item V E} factory l i p.
Arguments for_ {Item V E} undef factory l.

(** The default factory [function(value) {return value();}]: the items are
    the steps themselves, here given by the outcome of the promise each
    returns when invoked. *)
Definition default_factory {V E} (x : settled V E) (i : nat) (prev : option V) : settled V E := x.

End Runner.

(** ** Interactive form filling: [Executable.form], [readlineWhile]
    (src/bin/losh.js) *)

(** A field of the form JSON: [[name, prompt, transformer?]]. *)
Record field := {
  f_name : str;
  f_prompt : str;
  f_transformer : option str
}.

(** A [ReadlineResult] [{answer, error?}] delivered by the user input. *)
Record read_result := {
  answer : str;
  rerror : option js_error
}.

(** [readlineWhile(text, required)] reading from the remaining user
    input: a read error is returned at once; with [required] an empty
    answer fails the check (['Require input!']) and the prompt repeats.
    [None]: the input is exhausted, the awaited promise never settles. *)
Fixpoint readline_while (required : bool) (inp : list read_result)
    : option (read_result * list read_result) :=
  match inp with
  | [] => None
  | r :: inp' =>
      match rerror r with
      | Some _ => Some (r, inp')
      | None =>
          if required && negb (truthy (Some (answer r))) then readline_while required inp'
          else Some (r, inp')
      end
  end.

Definition starts_q (s : str) : bool :=
  match s with "?"%char :: _ => true | _ => false end.

(** The resolved [FormResult]: [{name, form, bag}], or
    [{name, form, bag, error}] on a read error; [FormWaiting] when the
    user input runs out. *)
Inductive form_result :=
| FormOk (b : gmap str str)
| FormError (b : gmap str str) (e : js_error)
| FormThrow (e : js_error)
| FormWaiting (b : gmap str str).

(** The loop [for (const index in form.fields)] with the bag so far.  The
    prompt text [this.replace(form.fields[index][1], bag)] is only
    displayed (a lenient [replace] never throws) and is not modelled. *)
Fixpoint form_loop (paths : gmap str str) (fs : list field)
    (inp : list read_result) (b : gmap str str) : form_result :=
  match fs with
  | [] => FormOk b
  | f :: fs' =>
      let required := negb (starts_q (f_name f)) in
      let name := if required then f_name f else tail (f_name f) in
      match readline_while required inp with
      | None => FormWaiting b
      | Some (input, inp') =>
          match rerror input with
          | Some e => FormError b e
          | None =>
              let transformer :=
                match f_transformer f with
                | Some t => if truthy (Some t) then t else lit "{{" ++ name ++ lit "}}"
                | None => lit "{{" ++ name ++ lit "}}"
                end in
              let b := js_set b name (answer input) in
              match replace paths transformer b false with
              | Ok value =>
                  match value with
                  | Some v => if truthy (Some v) then form_loop paths fs' inp' (js_set b name v)
                              else form_loop paths fs' inp' (delete name b)
                  | None => form_loop paths fs' inp' (delete name b)
                  end
              | Exn e => FormThrow e
              end
          end
      end
  end.

(** [form(name)] once the form JSON has been fetched and parsed. *)
Definition form (paths : gmap str str) (fields : list field) (inp : list read_result)
    : form_result :=
  form_loop paths fields inp ∅.

(** ** The command registry: [System.initCommands] and the [commands]
    getter (src/bin/losh.js) *)

(** A registered command: a native function (told apart by an identity)
    or the path of a script file. *)
Inductive entry :=
| EFunc (id : nat)
| EPath (path : str).

(** An argument of [initCommands]: a native function with its [name]
    property, or a directory path with the file names [readdirSync]
    lists for it. *)
Inductive source :=
| SNative (name : str) (id : nat)
| SDir (path : str) (files : list str).

Fixpoint last_dot_at (s : str) (i : nat) (found : option nat) : option nat :=
  match s with
  | [] => found
  | c :: s' => last_dot_at s' (S i) (if Ascii.eqb c "." then Some i else found)
  end.

(** [Path.extname] of a file name without separator: from the last dot,
    or empty when there is no dot or only dots precede it and it is the
    first character or the name is [..]. *)
Definition extname (f : str) : str :=
  match last_dot_at f 0 None with
  | None => []
  | Some d =>
      if forallb (fun c => Ascii.eqb c ".") (take d f) then
        (if Nat.eqb d 0 || bool_decide (f = lit "..") then [] else drop d f)
      else drop d f
  end.

(** [Path.join(path, file)] for a directory path and a plain file name. *)
Definition path_join (d f : str) : str := d ++ lit "/" ++ f.

(** One iteration of [for (const file of FS.readdirSync(path))]. *)
Definition register_file (path : str) (cmds : gmap str entry) (file : str) : gmap str entry :=
  let e := extname file in
  if bool_decide (e = lit ".js") || bool_decide (e = lit ".sh") then
    <[take (length file - length e) file := EPath (path_join path file)]> cmds
  else cmds.

(** [initCommands(path)]: [this._commands[...] = ...] for a directory's
    script files, or for a native function under its [name]. *)
Definition init_commands (cmds : gmap str entry) (src : source) : gmap str entry :=
  match src with
  | SNative name id => <[name := EFunc id]> cmds
  | SDir path files => fold_left (register_file path) files cmds
  end.

(** The registry built from the sources in registration order. *)
Definition commands (srcs : list source) : gmap str entry :=
  fold_left init_commands srcs ∅.

(** The [commands] getter: the built-in functions, then the extension
    directory when one was found. *)
Definition builtins : list source :=
  map (fun '(n, id) => SNative (lit n) id)
    [("cr", 0); ("cex", 1); ("cim", 2); ("version", 3); ("debug", 4); ("list", 5);
     ("generate", 6); ("test", 7); ("install", 8); ("uninstall", 9)].

Definition system_commands (extension : option (str * list str)) : gmap str entry :=
  commands (builtins ++ match extension with
                        | Some (p, files) => [SDir p files]
                        | None => []
                        end).

(** [this.commands[name]] *)
Definition resolve (srcs : list source) (name : str) : option entry :=
  commands srcs !! name.

(* ================================================================== *)
(** ** Templates built from literal text and placeholders *)

Definition brace_or_at (c : ascii) : bool :=
  (Ascii.eqb c "{" || Ascii.eqb c "}" || Ascii.eqb c "@")%bool.

(** Literal text without braces and without [@]. *)
Definition no_special (t : str) : bool := forallb (fun c => negb (brace_or_at c)) t.

(** Decoration characters of a placeholder: [[^!a-zA-Z0-9]] without braces
    and [@]. *)
Definition deco_ok (d : str) : bool := forallb (fun c => decor c && negb (brace_or_at c)) d.

(** A nonempty [[a-zA-Z0-9]+] key. *)
Definition key_ok (k : str) : bool :=
  match k with [] => false | _ => forallb alnum k end.

Definition no_at (v : str) : bool := forallb (fun c => negb (Ascii.eqb c "@")) v.

(** A template segment: literal text, or a placeholder
    [{{pre key post}}] ([{{pre!key post}}] when required). *)
Inductive seg :=
| Lit (t : str)
| Ph (pre : str) (req : bool) (key : str) (post : str).

Definition bang_of (req : bool) : str := if req then lit "!" else [].

Definition seg_text (sg : seg) : str :=
  match sg with
  | Lit t => t
  | Ph pre req key post => lit "{{" ++ pre ++ bang_of req ++ key ++ post ++ lit "}}"
  end.

Definition template (ss : list seg) : str := concat (map seg_text ss).

(** Well-formed segment whose key (if any) is bound in the bag to a value
    without [@]. *)
Definition seg_ok (b : gmap str str) (sg : seg) : bool :=
  match sg with
  | Lit t => no_special t
  | Ph pre req key post =>
      deco_ok pre && deco_ok post && key_ok key &&
      match b !! key with Some v => no_at v | None => false end
  end.

(** The text a segment stands for once substituted: a bound nonempty value
    with its decorations, nothing for an empty one. *)
Definition render (b : gmap str str) (sg : seg) : str :=
  match sg with
  | Lit t => t
  | Ph pre _ key post =>
      match b !! key with
      | Some v => if truthy (Some v) then pre ++ v ++ post else []
      | None => []
      end
  end.

(** The pieces the global bag expression cuts a segment into. *)
Definition seg_pieces (sg : seg) : list piece :=
  match sg with
  | Lit t => map PText t
  | Ph pre req key post => [PMatch (seg_text sg) [(3, post); (2, bang_of req ++ key); (1, pre)]]
  end.

(** The decoration run at the start of [r] holds no closing brace. *)
Fixpoint noclose_prefix (r : str) : bool :=
  match r with
  | [] => true
  | c :: r' => if Ascii.eqb c "}" then false else if decor c then noclose_prefix r' else true
  end.

(** A match of the bag pass that sets [breaked]. *)
Definition sets_breaked (b : gmap str str) (pc : piece) : bool :=
  match pc with
  | PMatch _ cs =>
      starts_bang (group 2 cs) &&
      match js_get b (tail (group 2 cs)) with None => true | Some _ => false end
  | PText _ => false
  end.



Definition hello_paths : gmap str str := {[ lit "root" := lit "/x" ]}.

Definition letter_segs : list seg :=
  [Lit (lit "Dear "); Ph [] false (lit "name") []; Lit (lit ", see ");
   Ph (lit "<") false (lit "ref") (lit ">")].

Definition letter_bag : gmap str str :=
  <[ lit "name" := lit "Ada" ]> {[ lit "ref" := lit "x1" ]}.

Definition empty_required_segs : list seg :=
  [Lit (lit "a"); Ph (lit "-") true (lit "k") (lit "-"); Lit (lit "b")].

(** ** Inputs and observations for the binding properties *)

(** Position [j] holds a required parameter left without a value. *)
Definition missing_at (ps : list param) (args : list str) (j : nat) : bool :=
  match ps !! j with
  | Some q => p_required q && is_null (resolve_arg q (args !! j))
  | None => false
  end.

(** The value the binding loop writes at a declared position. *)
Definition bound_value (ps : list param) (args : list str) (j : nat) : option str :=
  match ps !! j with
  | Some q => resolve_arg q (args !! j)
  | None => None
  end.

Definition two_required : list decl :=
  [DTuple (lit "!a") None None None; DTuple (lit "!b") None None None].

Definition required_then_fallback : list decl :=
  [DTuple (lit "!a") None None None; DTuple (lit "b") None None (Some (lit "fb"))].

Definition type_decls : list decl :=
  [DTuple (lit "type") None (Some (inl [lit "standard"; lit "update"; lit "speed"]))
     (Some (lit "standard"))].

Definition one_param : list decl := [DTuple (lit "a") None None None].

(** ** Inputs for the form properties *)

Definition title_slug_fields : list field :=
  [{| f_name := lit "title"; f_prompt := lit "Title?"; f_transformer := None |};
   {| f_name := lit "slug"; f_prompt := lit "Slug?"; f_transformer := Some (lit "{{title}}-slug") |}].

Definition typed (s : str) : read_result := {| answer := s; rerror := None |}.

Definition read_failure : js_error := LoshError (lit "read failed").

Definition title_field : field :=
  {| f_name := lit "title"; f_prompt := lit "Title?"; f_transformer := None |}.

Definition root_paths : gmap str str := {[ lit "root" := lit "/x" ]}.

(* ================================================================== *)
(** ** User input with a condition: [readlineWhile] and [readlineAccept]
    (src/bin/losh.js) *)

(** The value returned by a [ReadlineCondition]: [true], a message string
    (printed, then the prompt repeats), or any other value ([COther]),
    after which the prompt repeats as well ([check !== true]). *)
Inductive check :=
| CTrue
| CMsg (m : str)
| COther.

(** The [condition] argument of [readlineWhile]: a function, a string or
    a boolean. *)
Inductive condition :=
| CondFn (f : read_result -> check)
| CondStr (s : str)
| CondBool (b : bool).

Definition require_input : str := lit "Require input!".

(** The condition in force: a non-function other than [false] fails an
    empty answer with its message (the string itself, or
    ['Require input!']); [false] accepts every answer. *)
Definition make_condition (c : condition) : read_result -> check :=
  match c with
  | CondFn f => f
  | CondStr s => fun input => if Nat.eqb (length (answer input)) 0 then CMsg s else CTrue
  | CondBool true =>
      fun input => if Nat.eqb (length (answer input)) 0 then CMsg require_input else CTrue
  | CondBool false => fun _ => CTrue
  end.

(** The loop [do { input = await this.readline(text); ... } while (check !== true)]
    reading from the remaining user input; [None]: the input is
    exhausted and the promise never settles. *)
Fixpoint readline_while_cond (cond : read_result -> check) (inp : list read_result)
    : option (read_result * list read_result) :=
  match inp with
  | [] => None
  | input :: inp' =>
      match rerror input with
      | Some _ => Some (input, inp')
      | None =>
          match cond input with
          | CTrue => Some (input, inp')
          | _ => readline_while_cond cond inp'
          end
      end
  end.

(** [readlineWhile(text, condition)] *)
Definition readline_while_with (c : condition) (inp : list read_result)
    : option (read_result * list read_result) :=
  readline_while_cond (make_condition c) inp.

Definition dquote : ascii := "034".

Definition accept_message : str :=
  lit "Please use " ++ [dquote] ++ lit "y" ++ [dquote] ++ lit " for yes and " ++
  [dquote] ++ lit "n" ++ [dquote] ++ lit " for no.".

(** The condition of [readlineAccept]. *)
Definition accept_check (input : read_result) : check :=
  if negb (bool_decide (answer input = lit "y")) && negb (bool_decide (answer input = lit "n"))
  then CMsg accept_message else CTrue.

(** [readlineAccept(text)]: the consent and the remaining input, the
    thrown read error, or waiting for input that never comes. *)
Inductive accept_result :=
| Accepted (yes : bool) (rest : list read_result)
| AcceptThrow (e : js_error) (rest : list read_result)
| AcceptWaiting.

Definition readline_accept (inp : list read_result) : accept_result :=
  match readline_while_with (CondFn accept_check) inp with
  | None => AcceptWaiting
  | Some (input, inp') =>
      match rerror input with
      | Some e => AcceptThrow e inp'
      | None => Accepted (bool_decide (answer input = lit "y")) inp'
      end
  end.

(** ** Writing a file: [Executable.write] with [checkError]
    (src/bin/losh.js) *)

Section Write.

(** [FS.writeFileSync(path, content)] on a file system given by its file
    paths and contents: the new file system, or [None] when it throws. *)
Variable write_file_sync : gmap str str -> str -> str -> option (gmap str str).

(** The [error] of the object handed to [checkError]. *)
Inductive write_error :=
| NoConsent
| ReadFailed (e : js_error)
| WriteFailed.

(** The [WriteResult]; [consent] is [None] for the object built in the
    [catch] block, which has no [consent] property. *)
Inductive write_outcome :=
| Written (consent : bool)
| WriteError (consent : option bool) (e : write_error)
| WriteThrown (consent : option bool) (e : write_error)
| WriteWaiting.

(** [return this.checkError({..., error})]: in strict mode the object is
    thrown (in the [try] block it is caught and, carrying an [error],
    handed to [checkError] again, which throws it once more); otherwise it
    is logged and returned. *)
Definition check_error (strict : bool) (consent : option bool) (e : write_error) : write_outcome :=
  if strict then WriteThrown consent e else WriteError consent e.

(** [FS.existsSync(path)] *)
Definition exists_sync (fs : gmap str str) (path : str) : bool :=
  match fs !! path with Some _ => true | None => false end.

(** [write(path, content, force)] with the [_strict] flag of the
    executable: the file system, the remaining user input and the
    outcome. *)
Definition write (strict : bool) (fs : gmap str str) (inp : list read_result)
    (path content : str) (force : bool) : gmap str str * list read_result * write_outcome :=
  let write_now consent inp :=
    match write_file_sync fs path content with
    | Some fs' => (fs', inp, Written consent)
    | None => (fs, inp, check_error strict None WriteFailed)
    end in
  if negb force && exists_sync fs path then
    match readline_accept inp with
    | AcceptWaiting => (fs, [], WriteWaiting)
    | AcceptThrow e inp' => (fs, inp', check_error strict None (ReadFailed e))
    | Accepted true inp' => write_now true inp'
    | Accepted false inp' => (fs, inp', check_error strict (Some false) NoConsent)
    end
  else write_now false inp.

End Write.

(** ** Paths relative to a base: [Executable.relative] (src/bin/losh.js) *)

(** [s.startsWith(p)] *)
Fixpoint starts_with (s p : str) : bool :=
  match p, s with
  | [], _ => true
  | c :: p', c' :: s' => Ascii.eqb c c' && starts_with s' p'
  | _ :: _, [] => false
  end.

(** [v.length] as [substring] takes it: a string's length, a function's
    arity, and [undefined] (taken as [0]) for [Object.prototype]. *)
Definition js_length (v : jsval) : nat :=
  match v with
  | JStr s => length s
  | JFun _ n => n
  | JProtoObj => 0
  end.

(** [relative(path, cwd)] over [this.system.paths]: [startsWith] compares
    with the text of the value read, an [undefined] base is the text
    ['undefined'], and reading [undefined.length] throws. *)
Definition relative (paths : gmap str str) (path cwd : str) : result str :=
  match js_get paths cwd with
  | Some base =>
      Ok (if starts_with path (js_string base) then lit "." ++ drop (js_length base) path else path)
  | None => if starts_with path (lit "undefined") then Exn TypeError else Ok path
  end.

(** ** Terminal colours: [Log.inColor] and [Log.insertStyle]
    (src/bin/losh.js) *)

(** An entry of [Log.codes]: the opening and closing SGR numbers, as the
    decimal text string concatenation gives them, and the optional
    third element (the quote of the ['!'] style). *)
Record code := {
  c_open : str;
  c_close : str;
  c_quote : option str
}.

Definition esc : ascii := "027".

(** [inColor(code, string)] *)
Definition in_color (cd : code) (s : str) : str :=
  let q := match c_quote cd with Some q => if truthy (Some q) then q else [] | None => [] end in
  [esc] ++ lit "[" ++ c_open cd ++ lit "m" ++ q ++ s ++ q ++ [esc] ++ lit "[" ++ c_close cd ++ lit "m".

(** [[0-9]] *)
Definition digit (c : ascii) : bool := in_range "0" "9" c.

(** [/\x1B\[(\d)+m/]: the repeated group holds a single digit and only the
    matched text is used, so the expression is [\x1B\[\d+m] here. *)
Definition re_sgr : list atom := [AChar esc; AChar "["; APlus digit; AChar "m"].

Fixpoint matched (ps : list piece) : list str :=
  match ps with
  | [] => []
  | PMatch m _ :: ps' => m :: matched ps'
  | PText _ :: ps' => matched ps'
  end.

(** [s.match(re)] for a global expression: the matched texts, or [null]. *)
Definition match_all (re : list atom) (s : str) : option (list str) :=
  match matched (scan re s 0) with
  | [] => None
  | ms => Some ms
  end.

(** [insertStyle(full, insert)] *)
Definition insert_style (full insert : str) : str :=
  match match_all re_sgr full with
  | Some (m :: _) => if truthy (Some m) then insert ++ [esc] ++ lit "[" ++ m else insert
  | _ => insert
  end.

(** ** The Node.js version: [Node.version] (src/bin/losh.js) *)

Fixpoint first_match (ps : list piece) : option (str * caps) :=
  match ps with
  | [] => None
  | PMatch m cs :: _ => Some (m, cs)
  | PText _ :: ps' => first_match ps'
  end.

(** [s.match(re)] for an expression without the [g] flag: the first match
    (its text and groups), found from index 0 as the global scan finds
    it. *)
Definition exec (re : list atom) (s : str) : option (str * caps) :=
  first_match (scan re s 0).

(** [/(\d+)\.(\d+)\.(\d+)/] *)
Definition re_version : list atom :=
  [AOpen 1; APlus digit; AClose 1; AChar ".";
   AOpen 2; APlus digit; AClose 2; AChar ".";
   AOpen 3; APlus digit; AClose 3].

Record version := {
  v_full : str;
  v_major : str;
  v_minor : str;
  v_patch : str
}.

(** The callback of [version()] on the output [data.out] of [node -v]:
    [matches[0]] of [null] throws. *)
Definition node_version (out : str) : result version :=
  match exec re_version out with
  | Some (m, cs) =>
      Ok {| v_full := m; v_major := group 1 cs; v_minor := group 2 cs; v_patch := group 3 cs |}
  | None => Exn TypeError
  end.

(** ** Query results: [Drush.sqlSelect] (src/bin/losh.js) *)

(** [s.split(sep)] for a non-empty separator, as ECMAScript splits: left
    to right at each occurrence of [sep] not overlapping the previous
    one; [skip] characters of a found separator remain to be passed and
    [cur] is the current piece, reversed. *)
Fixpoint split_go (sep s : str) (skip : nat) (cur : str) : list str :=
  match s with
  | [] => [rev cur]
  | c :: s' =>
      match skip with
      | S k => split_go sep s' k cur
      | 0 =>
          if starts_with s sep then rev cur :: split_go sep s' (pred (length sep)) []
          else split_go sep s' 0 (c :: cur)
      end
  end.

Definition split (s sep : str) : list str := split_go sep s 0 [].

(** JavaScript white space and line terminators among the characters
    (U+00A0 for the byte 160 read as a Latin-1 code point). *)
Definition js_space (c : ascii) : bool :=
  existsb (fun n => Nat.eqb (nat_of_ascii c) n) [9; 10; 11; 12; 13; 32; 160].

Fixpoint drop_space (s : str) : str :=
  match s with
  | c :: s' => if js_space c then drop_space s' else s
  | [] => []
  end.

(** [s.trim()] *)
Definition trim (s : str) : str := rev (drop_space (rev (drop_space s))).

Definition tab : str := ["009"%char].

Definition newline (win : bool) : str := if win then ["013"%char; "010"%char] else ["010"%char].

(** One row object: [row[header[i]] = result[i]] for each column in
    order; a missing cell is [undefined] ([None]); assigning a string or
    [undefined] to a [__proto__] key is ignored by its setter. *)
Definition row_of (header result : list str) : gmap str (option str) :=
  fold_left (fun row i =>
    match header !! i with
    | Some h => if bool_decide (h = lit "__proto__") then row else <[h := result !! i]> row
    | None => row
    end) (seq 0 (length header)) ∅.

(** The rows built from the output [data.out] of [drush sql-cli]; [win]
    selects the line separator. *)
Definition sql_select (win : bool) (out : str) : list (gmap str (option str)) :=
  match split out (newline win) with
  | [] => []
  | first :: lines =>
      let header := split first tab in
      fold_left (fun rows line =>
        if Nat.eqb (length (trim line)) 0 then rows
        else rows ++ [row_of header (split line tab)]) lines []
  end.

(** [list.join(sep)] ([Array.prototype.join] on strings), as the shell
    prints one line per row with the cells separated by tabs. *)
Fixpoint join (sep : str) (l : list str) : str :=
  match l with
  | [] => []
  | [x] => x
  | x :: l' => x ++ sep ++ join sep l'
  end.

(** ** Dispatch: [System.execute] (src/bin/losh.js) *)

(** The names of the properties of [Object.prototype], found by
    [this.commands[name]] on the plain registry object. *)
Definition object_proto_keys : list str := map fst proto_props.

(** [list.params] *)
Definition list_decls : list decl :=
  [DTuple (lit "type") (Some (lit "The information"))
     (Some (inl (map lit ["full"; "simple"; "usage"; "format"]))) (Some (lit "format"))].

(** The [params] of the native commands, by the identities of
    [builtins]: [generate.params], [install.params] and [list.params];
    [version.params] is empty and the other functions have none. *)
Definition native_params (id : nat) : list decl :=
  match id with
  | 5 => list_decls
  | 6 => [DTuple (lit "name") None None None]
  | 8 => [DTuple (lit "package") (Some (lit "The name of the package.")) None None]
  | _ => []
  end.

(** The outcome of [execute(args)]: the named command is run with the
    remaining arguments, or the command registered as [list] is run with
    them and the result gets the error returned by [this.log.error], a
    [LoshError] of the message text as passed (its placeholders not
    replaced). *)
Inductive exec_outcome :=
| ExecCommand (name : str) (args : list str)
| ExecList (r : run_result) (error : js_error).

Definition not_found_message : str := lit "Command [@command] not found!".

Section Dispatch.
(** The [params] exported by the module of a [.js] command file. *)
Variable module_params : str -> list decl.

(** The [params] getter of [getExecutable(name)] for a registry entry:
    the function's own, the required module's for a [.js] file (the
    registered paths end in [.js] or [.sh]), none for a shell script. *)
Definition entry_params (e : entry) : list decl :=
  match e with
  | EFunc id => native_params id
  | EPath p => if bool_decide (extname p = lit ".js") then module_params p else []
  end.

(** [getExecutable('list').run(args)]: without an entry [list] the
    executable has no file, its [factory] getter calls [require(null)]
    and [run] rejects with a [TypeError]. *)
Definition run_list (srcs : list source) (args : list str) : run_result :=
  match resolve srcs (lit "list") with
  | Some e => run (entry_params e) args
  | None => RunThrow TypeError
  end.

(** [const name = args.shift()] ([undefined], looked up as the key
    ['undefined'], when there is no argument), then [this.commands[name]]:
    an own entry or an [Object.prototype] property is truthy. *)
Definition system_execute (srcs : list source) (args : list str) : exec_outcome :=
  let '(name, rest) := match args with [] => (lit "undefined", []) | n :: a => (n, a) end in
  if match resolve srcs name with Some _ => true | None => false end
     || bool_decide (name ∈ object_proto_keys)
  then ExecCommand name rest
  else ExecList (run_list srcs rest) (LoshError not_found_message).

End Dispatch.

(** ** Logging errors: [Log.getError], [Log.error], [Log.failed] and
    [Executable.checkError] (src/bin/losh.js) *)

(** An [Error] object: its identity, [message] and [stack]. *)
Record js_err := { e_id : nat; e_message : str; e_stack : str }.

(** The [message] argument: a string, an [Error], or an object whose
    [error] property is an [Error] (the result objects of [sh], [run]
    and [write]). *)
Inductive log_msg :=
| MText (m : str)
| MError (e : js_err)
| MHolder (e : js_err).

(** The [placeholders] argument: a string or an object literal. *)
Inductive log_ph :=
| PhStr (s : str)
| PhObj (o : list (str * str)).

(** The mutable properties [printed] and [stricted] of the error objects
    (a missing entry is [undefined]), the lines written by
    [console.error], and the identity of the next [new LoshError]. *)
Record log_state := {
  printed : gmap nat bool;
  stricted : gmap nat bool;
  console : list str;
  next_id : nat
}.

(** [getError(message)]: [message.error || message] for an [Error] or an
    object holding one, else [null]. *)
Definition get_error (m : log_msg) : option js_err :=
  match m with
  | MText _ => None
  | MError e | MHolder e => Some e
  end.

Definition flag (f : gmap nat bool) (e : js_err) : bool :=
  match f !! e_id e with Some b => b | None => false end.

(** [console.error(line)] *)
Definition emit (st : log_state) (line : str) : log_state :=
  {| printed := printed st; stricted := stricted st; console := console st ++ [line];
     next_id := next_id st |}.

(** [error.printed = true] *)
Definition mark_printed (st : log_state) (e : js_err) : log_state :=
  {| printed := <[e_id e := true]> (printed st); stricted := stricted st; console := console st;
     next_id := next_id st |}.

(** [this.color.red] and [this.bg.red] *)
Definition red : code := {| c_open := lit "31"; c_close := lit "39"; c_quote := None |}.
Definition bg_red : code := {| c_open := lit "41"; c_close := lit "49"; c_quote := None |}.

(** [(typeof placeholders === 'string' ? ' ' + placeholders : '')] *)
Definition ph_suffix (ph : log_ph) : str :=
  match ph with PhStr s => lit " " ++ s | PhObj _ => [] end.

Section Log.
(** [this.replace(message, placeholders)] (Log.replace), and the [stack]
    text of a new [LoshError]. *)
Variables (replace : str -> log_ph -> str) (new_stack : str -> str).

(** [error = new LoshError(message); error.printed = true;] *)
Definition new_error (st : log_state) (m : str) : log_state * js_err :=
  let e := {| e_id := next_id st; e_message := m; e_stack := new_stack m |} in
  ({| printed := <[next_id st := true]> (printed st); stricted := stricted st;
      console := console st; next_id := S (next_id st) |}, e).

(** [error(message, placeholders)]: the state after the call and the
    returned error. *)
Definition log_error (st : log_state) (m : log_msg) (ph : log_ph) : log_state * js_err :=
  match m with
  | MText t => new_error (emit st (replace (in_color red (lit "[ERROR]: " ++ t)) ph)) t
  | MError e | MHolder e =>
      if flag (printed st) e then (st, e)
      else (mark_printed (emit st (in_color red (lit "[ERROR]: " ++ e_message e ++ ph_suffix ph))) e, e)
  end.

(** [failed(message, placeholders, full)] *)
Definition log_failed (st : log_state) (m : log_msg) (ph : log_ph) (full : bool) : log_state * js_err :=
  match m with
  | MText t => new_error (emit st (replace (in_color bg_red (lit "[FAILED]: " ++ t)) ph)) t
  | MError e | MHolder e =>
      if flag (printed st) e then (st, e)
      else
        let add := (if flag (stricted st) e then lit "Abort caused by strict mode. " else []) ++
                   (if full then e_stack e else e_message e) in
        (mark_printed (emit st (in_color bg_red (lit "[FAILED]: " ++ add ++ ph_suffix ph))) e, e)
  end.

(** [checkError(result)] with [this._strict]: an error is flagged
    [stricted] and thrown in strict mode, else logged; the result is
    returned ([inl]) or thrown ([inr]). *)
Definition check_error_log (st : log_state) (strict : bool) (r : log_msg) : log_state * (log_msg + log_msg) :=
  match get_error r with
  | Some e =>
      if strict then
        ({| printed := printed st; stricted := <[e_id e := true]> (stricted st); console := console st;
            next_id := next_id st |}, inr r)
      else (fst (log_error st r (PhObj [])), inl r)
  | None => (st, inl r)
  end.

End Log.

(** * Properties *)

(** ** Property lookups through [Object.prototype] *)

Lemma lookup_prop_notin k l : k ∉ map fst l -> lookup_prop k l = None.
Proof.
  induction l as [|[n v] l IH]; intros H; [reflexivity|].
  simpl in H. apply not_elem_of_cons in H as [Hn H]. simpl.
  rewrite bool_decide_eq_false_2 by exact Hn. apply IH, H.
Qed.

Lemma js_get_absent (m : gmap str str) k :
  m !! k = None -> k ∉ object_proto_keys -> js_get m k = None.
Proof. intros Hm Hk. unfold js_get. rewrite Hm. apply lookup_prop_notin, Hk. Qed.

Lemma js_get_own (m : gmap str str) k v : m !! k = Some v -> js_get m k = Some (JStr v).
Proof. intros Hm. unfold js_get. rewrite Hm. reflexivity. Qed.

Lemma js_set_set (m : gmap str str) k v w : js_set (js_set m k v) k w = js_set m k w.
Proof.
  unfold js_set. destruct (bool_decide (k = lit "__proto__")); [reflexivity|].
  apply insert_insert_eq.
Qed.

Lemma delete_js_set (m : gmap str str) k v : delete k (js_set m k v) = delete k m.
Proof.
  unfold js_set. destruct (bool_decide (k = lit "__proto__")); [reflexivity|].
  apply delete_insert_eq.
Qed.

Lemma js_set_own (m : gmap str str) k v : k <> lit "__proto__" -> js_set m k v = <[k := v]> m.
Proof. intros Hk. unfold js_set. rewrite bool_decide_eq_false_2 by exact Hk. reflexivity. Qed.

(** ** The sequential runner *)

Module RunnerFacts.
Import Runner.

Section Chain.
Variables (Item V E : Type) (undef : V) (f : Item -> nat -> option V -> settled V E).

Definition fulfilled (c : nat * settled V E) : Prop := exists v, snd c = Fulfilled v.

(** The shape of the chain built so far: the calls are made for the
    indices [0 .. n-1] in order, all but the last fulfilled, and the
    chain's outcome is the last call's outcome. *)
Definition chain_inv (q : promise V E) (n : nat) : Prop :=
  map fst (calls q) = seq 0 n /\
  exists pre k, calls q = pre ++ [(k, state q)] /\ Forall fulfilled pre.

Lemma chain_rejected (l : list Item) i (q : promise V E) e :
  state q = Rejected e -> chain f l i (Some q) = Some q.
Proof.
  revert i. induction l as [|x l IH]; intros i Hq; simpl; [reflexivity|].
  unfold then_ at 1. rewrite Hq. apply IH; exact Hq.
Qed.

Lemma chain_step (l : list Item) n (q : promise V E) :
  chain_inv q n ->
  exists r, chain f l n (Some q) = Some r /\
    chain_inv r (length (calls r)) /\
    length (calls r) <= n + length l /\
    (length (calls r) < n + length l -> exists e, state r = Rejected e).
Proof.
  revert n q. induction l as [|x l IH]; intros n q Hinv.
  - exists q. simpl. destruct Hinv as [Hm Hl].
    assert (length (calls q) = n) as Hn.
    { rewrite <- (length_map fst), Hm. apply length_seq. }
    rewrite Hn. repeat split; auto; lia.
  - simpl. destruct (state q) as [v|e] eqn:Hs.
    + unfold then_ at 1. rewrite Hs. simpl.
      set (q' := {| calls := calls q ++ [(n, f x n (Some v))]; state := f x n (Some v) |}).
      assert (chain_inv q' (S n)) as Hinv'.
      { destruct Hinv as [Hm (pre & k & Hc & Hf)]. split.
        - unfold q'; cbn [calls]. rewrite map_app, Hm, seq_S. reflexivity.
        - exists (calls q), n. split; [reflexivity|].
          rewrite Hc. apply Forall_app; split; [exact Hf|].
          constructor; [|constructor]. exists v. simpl. exact Hs. }
      destruct (IH (S n) q' Hinv') as (r & Hr & Hi & Hle & Hlt).
      exists r. rewrite Hr. split; [reflexivity|]. split; [exact Hi|].
      split; [lia|]. intros Hlt'. apply Hlt. lia.
    + unfold then_ at 1. rewrite Hs. rewrite (chain_rejected l (S n) q e Hs).
      exists q. destruct Hinv as [Hm Hl].
      assert (length (calls q) = n) as Hn.
      { rewrite <- (length_map fst), Hm. apply length_seq. }
      rewrite Hn. split; [reflexivity|]. split; [split; [exact Hm|exact Hl]|].
      split; [lia|]. intros _. exists e. exact Hs.
Qed.

End Chain.

(** C2 (SequentialRunner, [Executable.for]): the steps are invoked one at
    a time in list order, each only after the previous one fulfilled;
    after a rejection no later step is invoked and the overall outcome is
    the outcome of the last step invoked, so the first rejection is the
    result; the run stops early only on a rejection.  For [[s1, s2, s3]]
    with [s2] rejecting, [s3] is never invoked and the result is [s2]'s
    rejection; an empty list resolves at once with [undefined]. *)
Theorem for_fail_fast :
  (forall (Item V E : Type) (undef : V) (f : Item -> nat -> option V -> settled V E)
          (l : list Item),
    let p := for_ undef f l in
    map fst (calls p) = seq 0 (length (calls p)) /\
    length (calls p) <= length l /\
    (l <> [] -> exists pre k, calls p = pre ++ [(k, state p)] /\
                 Forall (fun c => exists v, snd c = Fulfilled v) pre) /\
    (length (calls p) < length l -> exists e, state p = Rejected e)) /\
  (forall (V E : Type) (undef v1 : V) (e2 : E) (s3 : settled V E),
    for_ undef default_factory [Fulfilled v1; Rejected e2; s3] =
      {| calls := [(0, Fulfilled v1); (1, Rejected e2)]; state := Rejected e2 |}) /\
  (forall (Item V E : Type) (undef : V) (f : Item -> nat -> option V -> settled V E),
    for_ undef f [] = {| calls := []; state := Fulfilled undef |}).
Proof.
  split; [|split].
  - intros Item V E undef f l p. subst p. unfold for_. destruct l as [|x l].
    + simpl. repeat split; try lia. intros []; reflexivity.
    + simpl.
      destruct (chain_step Item V E f l 1 (call f x 0 None)) as (r & Hr & Hi & Hle & Hlt).
      { split; [reflexivity|]. exists [], 0. split; [reflexivity|constructor]. }
      rewrite Hr. destruct Hi as [Hm Hp]. split; [exact Hm|]. split; [lia|].
      split; [intros _; exact Hp|]. intros H. apply Hlt. lia.
  - intros. reflexivity.
  - intros. reflexivity.
Qed.

End RunnerFacts.

(** ** The command registry *)

Module RegistryFacts.

Lemma register_file_lookup (path : str) (m : gmap str entry) (file n : str) :
  register_file path m file !! n =
  match register_file path ∅ file !! n with Some e => Some e | None => m !! n end.
Proof.
  unfold register_file. destruct (_ || _).
  - destruct (decide (take (length file - length (extname file)) file = n)) as [<-|Hne].
    + rewrite !lookup_insert_eq. reflexivity.
    + rewrite !lookup_insert_ne by done. rewrite lookup_empty. reflexivity.
  - rewrite lookup_empty. reflexivity.
Qed.

Lemma fold_register_lookup (path : str) (files : list str) (m : gmap str entry) (n : str) :
  fold_left (register_file path) files m !! n =
  match fold_left (register_file path) files ∅ !! n with Some e => Some e | None => m !! n end.
Proof.
  revert m. induction files as [|f fs IH]; intros m; simpl.
  - rewrite lookup_empty. reflexivity.
  - rewrite (IH (register_file path m f)), (IH (register_file path ∅ f)).
    rewrite (register_file_lookup path m f n).
    destruct (fold_left (register_file path) fs ∅ !! n); [reflexivity|].
    destruct (register_file path ∅ f !! n); reflexivity.
Qed.

(** Registering a source on top of a registry: the source's own entry for
    a name if it has one, the earlier entry otherwise. *)
Lemma init_commands_lookup (m : gmap str entry) (src : source) (n : str) :
  init_commands m src !! n =
  match init_commands ∅ src !! n with Some e => Some e | None => m !! n end.
Proof.
  destruct src as [name id|path files]; simpl.
  - destruct (decide (name = n)) as [<-|Hne].
    + rewrite !lookup_insert_eq. reflexivity.
    + rewrite !lookup_insert_ne by done. rewrite lookup_empty. reflexivity.
  - apply fold_register_lookup.
Qed.

Lemma fold_init_unchanged (srcs : list source) (m : gmap str entry) (n : str) :
  Forall (fun s => init_commands ∅ s !! n = None) srcs ->
  fold_left init_commands srcs m !! n = m !! n.
Proof.
  revert m. induction srcs as [|s srcs IH]; intros m Hall; simpl; [reflexivity|].
  inversion Hall as [|? ? Hs Hrest]; subst.
  rewrite IH by exact Hrest. rewrite init_commands_lookup, Hs. reflexivity.
Qed.

(** C8 (CommandRegistry, [System.initCommands]): registration order
    decides: when a source registers a name and no later source does,
    [resolve] returns that source's entry, whatever earlier sources
    registered under the name (last registration wins); with two sources
    both declaring [build], [resolve("build")] is the second one's. *)
Theorem resolve_last_registration (pre : list source) (s : source) (post : list source)
    (n : str) (e : entry) :
  init_commands ∅ s !! n = Some e ->
  Forall (fun s' => init_commands ∅ s' !! n = None) post ->
  resolve (pre ++ s :: post) n = Some e.
Proof.
  intros Hs Hpost. unfold resolve, commands.
  rewrite fold_left_app. simpl.
  rewrite fold_init_unchanged by exact Hpost.
  rewrite init_commands_lookup, Hs. reflexivity.
Qed.

(** Two directories both declaring [build]: the second one's script. *)
Lemma resolve_last_registration_witness :
  resolve [SDir (lit "/a") [lit "build.js"]; SDir (lit "/b") [lit "build.sh"]] (lit "build")
  = Some (EPath (lit "/b/build.sh")).
Proof.
  apply (resolve_last_registration [SDir (lit "/a") [lit "build.js"]]
           (SDir (lit "/b") [lit "build.sh"]) []); vm_compute; [reflexivity|constructor].
Defined.

End RegistryFacts.

(** ** Argument binding *)

Module BindFacts.

Lemma first_true (f : nat -> bool) i :
  f i = true -> exists j, j <= i /\ f j = true /\ forall j', j' < j -> f j' = false.
Proof.
  induction i as [i IH] using lt_wf_ind. intros Hi.
  destruct (existsb f (seq 0 i)) eqn:E.
  - apply existsb_exists in E as (j & Hj & Hfj). apply in_seq in Hj.
    destruct (IH j ltac:(lia) Hfj) as (j0 & ? & ? & ?). exists j0. split; [lia|auto].
  - exists i. split; [lia|]. split; [exact Hi|]. intros j' Hj'.
    destruct (f j') eqn:Ef; [|reflexivity]. exfalso.
    assert (existsb f (seq 0 i) = true) as Hc.
    { apply existsb_exists. exists j'. split; [apply in_seq; lia|exact Ef]. }
    congruence.
Qed.


Lemma bind_loop_missing (ps : list param) (args : list str) n i obj w j q :
  i <= j < i + n -> ps !! j = Some q -> missing_at ps args j = true ->
  (forall j', i <= j' < j -> missing_at ps args j' = false) ->
  bind_loop ps args i n obj w = MissingArgument (p_name q).
Proof.
  revert i obj w. induction n as [|n IH]; intros i obj w Hij Hq Hm Hbefore; [lia|].
  simpl. destruct (ps !! i) as [p|] eqn:Hp.
  - destruct (Nat.eq_dec i j) as [->|Hne].
    + rewrite Hq in Hp. injection Hp as <-. unfold missing_at in Hm. rewrite Hq in Hm.
      rewrite Hm. reflexivity.
    + assert (missing_at ps args i = false) as Hi by (apply Hbefore; lia).
      unfold missing_at in Hi. rewrite Hp in Hi. rewrite Hi.
      apply IH; auto; [lia|]. intros j' Hj'. apply Hbefore. lia.
  - exfalso. assert (j < length ps) by (apply lookup_lt_is_Some; eauto).
    assert (length ps <= i) by (apply lookup_ge_None; exact Hp). lia.
Qed.

Lemma parse_params_fallback (ds : list decl) (ps : list param) i p :
  parse_params ds = Ok ps -> ps !! i = Some p ->
  exists n d o f, ds !! i = Some (DTuple n d o f) /\ p_fallback p = or_null f.
Proof.
  revert ps i. induction ds as [|dd ds IH]; intros ps i Hps Hp; simpl in Hps.
  - injection Hps as <-. discriminate.
  - destruct (parse_param dd) as [p0|e] eqn:Hd; [|discriminate].
    destruct (parse_params ds) as [ps'|e] eqn:Hds; [|discriminate].
    injection Hps as <-. destruct i as [|i]; simpl in Hp.
    + injection Hp as <-. destruct dd as [n0|n0 d0 o0 f0]; simpl in Hd; [discriminate|].
      injection Hd as <-. exists n0, d0, o0, f0. split; reflexivity.
    + exact (IH ps' i eq_refl Hp).
Qed.

Lemma or_null_truthy (f : option str) : or_null f = None \/ truthy (or_null f) = true.
Proof. unfold or_null. destruct (truthy f) eqn:E; [right; exact E|left; reflexivity]. Qed.

Lemma resolve_arg_cases (p : param) a :
  (p_fallback p = None \/ truthy (p_fallback p) = true) ->
  resolve_arg p a = None \/ truthy (resolve_arg p a) = true.
Proof.
  intros Hf. unfold resolve_arg. destruct (truthy a) eqn:E; [right; exact E|exact Hf].
Qed.

(** C4 (binding, [Executable.run]): when a required parameter is left
    with an empty or absent value after the fallback, [run] returns from
    the binding loop with the missing-argument error before the command
    body is called; the parameter named is the first such one in
    declaration order. *)
Theorem run_missing_argument (ds : list decl) (ps : list param) (args : list str)
    (i : nat) (p : param) :
  parse_params ds = Ok ps -> ps !! i = Some p -> p_required p = true ->
  truthy (resolve_arg p (args !! i)) = false ->
  exists j q, j <= i /\ ps !! j = Some q /\ p_required q = true /\
    resolve_arg q (args !! j) = None /\
    (forall j' q', j' < j -> ps !! j' = Some q' -> p_required q' = true ->
       resolve_arg q' (args !! j') <> None) /\
    run ds args = RunMissing (p_name q).
Proof.
  intros Hps Hp Hreq Hempty.
  assert (resolve_arg p (args !! i) = None) as Hnone.
  { destruct (parse_params_fallback ds ps i p Hps Hp) as (n & d & o & f & _ & Hf).
    destruct (resolve_arg_cases p (args !! i)) as [H|H]; [rewrite Hf; apply or_null_truthy|exact H|congruence]. }
  assert (missing_at ps args i = true) as Hm.
  { unfold missing_at. rewrite Hp, Hreq, Hnone. reflexivity. }
  destruct (first_true (missing_at ps args) i Hm) as (j & Hji & Hmj & Hfirst).
  destruct (ps !! j) as [q|] eqn:Hq; [|unfold missing_at in Hmj; rewrite Hq in Hmj; discriminate].
  exists j, q. unfold missing_at in Hmj. rewrite Hq in Hmj.
  apply andb_true_iff in Hmj as [Hrq Hnq].
  split; [exact Hji|]. split; [exact Hq|]. split; [exact Hrq|].
  split; [destruct (resolve_arg q (args !! j)); [discriminate|reflexivity]|].
  split.
  - intros j' q' Hj' Hq' Hr' Hn0. specialize (Hfirst j' Hj').
    unfold missing_at in Hfirst. rewrite Hq', Hr', Hn0 in Hfirst. discriminate.
  - unfold run. rewrite Hps. unfold bind.
    assert (j < length ps) as Hlt by (apply lookup_lt_is_Some; eauto).
    destruct (Nat.eqb (length ps) 0) eqn:E0; [apply Nat.eqb_eq in E0; lia|].
    rewrite (bind_loop_missing ps args _ 0 init_args [] j q).
    + reflexivity.
    + destruct (length args <? length ps) eqn:Elt; [|apply Nat.ltb_ge in Elt]; lia.
    + exact Hq.
    + unfold missing_at. rewrite Hq, Hrq, Hnq. reflexivity.
    + intros j' Hj'. apply Hfirst. lia.
Qed.


Lemma run_missing_argument_witness :
  run two_required [] = RunMissing (lit "a").
Proof.
  destruct (parse_params two_required) as [ps|e] eqn:Hps; [|vm_compute in Hps; discriminate].
  assert (Hps' := Hps). vm_compute in Hps'. injection Hps' as <-.
  destruct (run_missing_argument two_required _ [] 1 _ Hps eq_refl eq_refl eq_refl)
    as (j & q & Hj & Hq & _ & _ & Hfirst & Hrun).
  rewrite Hrun. destruct j as [|[|j]]; [| |lia].
  - injection Hq as <-. reflexivity.
  - exfalso. apply (Hfirst 0 _ ltac:(lia) eq_refl eq_refl). reflexivity.
Defined.

(** The claim as stated fails: with two required parameters and no
    argument, the second one is left absent but the error names the
    first. *)
Lemma run_missing_argument_names_first :
  (match parse_params two_required with
   | Ok ps => match ps !! 1 with
              | Some q => p_required q && is_null (resolve_arg q None)
              | None => false
              end
   | Exn _ => false
   end = true) /\
  run two_required [] = RunMissing (lit "a") /\
  run two_required [] <> RunMissing (lit "b").
Proof. vm_compute. split; [reflexivity|]. split; [reflexivity|]. discriminate. Qed.


Lemma lookup_map_list {A B} (f : A -> B) (l : list A) i :
  map f l !! i = f <$> (l !! i).
Proof. revert i. induction l as [|x l IH]; intros [|i]; simpl; auto. Qed.

Lemma lookup_seq_lt j n i : i < n -> seq j n !! i = Some (j + i).
Proof.
  revert j i. induction n as [|n IH]; intros j [|i] Hi; simpl; try lia.
  - f_equal. lia.
  - rewrite IH by lia. f_equal. lia.
Qed.

Lemma bind_loop_writes (ps : list param) (args : list str) n i obj w obj' w' :
  bind_loop ps args i n obj w = Bound obj' w' -> length ps <= i + n ->
  w' = w ++ map (fun j => (j, bound_value ps args j)) (seq i (length ps - i)).
Proof.
  revert i obj w. induction n as [|n IH]; intros i obj w H Hle; simpl in H.
  - injection H as <- <-. replace (length ps - i) with 0 by lia. simpl.
    rewrite app_nil_r. reflexivity.
  - destruct (ps !! i) as [p|] eqn:Hp.
    + destruct (p_required p && is_null (resolve_arg p (args !! i))); [discriminate|].
      rewrite (IH _ _ _ H ltac:(lia)).
      assert (i < length ps) by (apply lookup_lt_is_Some; eauto).
      replace (length ps - i) with (S (length ps - S i)) by lia.
      cbn [seq map]. rewrite <- app_assoc. f_equal. cbn [app]. f_equal.
      unfold bound_value. rewrite Hp. reflexivity.
    + assert (length ps <= i) by (apply lookup_ge_None; exact Hp).
      destruct (obj !! overflow_key) as [[v|l]|]; try discriminate.
      rewrite (IH _ _ _ H ltac:(lia)).
      replace (length ps - S i) with 0 by lia. replace (length ps - i) with 0 by lia.
      reflexivity.
Qed.

Lemma bind_loop_keeps (ps : list param) (args : list str) n i obj w obj' w' x :
  bind_loop ps args i n obj w = Bound obj' w' -> i + n <= length ps ->
  (forall k q, i <= k -> ps !! k = Some q -> p_name q <> x) ->
  obj' !! x = obj !! x.
Proof.
  revert i obj w. induction n as [|n IH]; intros i obj w H Hle Hx; simpl in H.
  - injection H as <- <-. reflexivity.
  - destruct (ps !! i) as [p|] eqn:Hp.
    + destruct (p_required p && is_null (resolve_arg p (args !! i))); [discriminate|].
      rewrite (IH _ _ _ H ltac:(lia)).
      * apply lookup_insert_ne. apply (Hx i); [lia|exact Hp].
      * intros k q Hk Hq. apply (Hx k); [lia|exact Hq].
    + exfalso. assert (length ps <= i) by (apply lookup_ge_None; exact Hp). lia.
Qed.

Lemma bind_loop_values (ps : list param) (args : list str) n i obj w obj' w' :
  bind_loop ps args i n obj w = Bound obj' w' -> i + n = length ps ->
  (forall j k qj qk, ps !! j = Some qj -> ps !! k = Some qk -> p_name qj = p_name qk -> j = k) ->
  forall j q, i <= j -> ps !! j = Some q ->
  obj' !! p_name q = Some (AStr (resolve_arg q (args !! j))).
Proof.
  revert i obj w. induction n as [|n IH]; intros i obj w H Hlen Hdist j q Hj Hq.
  - exfalso. assert (j < length ps) by (apply lookup_lt_is_Some; eauto). lia.
  - simpl in H. destruct (ps !! i) as [p|] eqn:Hp.
    + destruct (p_required p && is_null (resolve_arg p (args !! i))); [discriminate|].
      destruct (Nat.eq_dec j i) as [->|Hne].
      * rewrite Hq in Hp. injection Hp as <-.
        rewrite (bind_loop_keeps ps args n (S i) _ _ obj' w' (p_name q) H ltac:(lia)).
        -- apply lookup_insert_eq.
        -- intros k q' Hk Hq' Heq. assert (k = i) by (apply (Hdist k i q' q); auto). lia.
      * apply (IH (S i) _ _ H ltac:(lia) Hdist j q ltac:(lia) Hq).
    + exfalso. assert (length ps <= i) by (apply lookup_ge_None; exact Hp). lia.
Qed.

(** C5 (binding, [Executable.run]): when binding completes, every declared
    position is written exactly once and in order, and a position beyond
    the raw arguments is written with the parameter's declared fallback
    ([null] when it declares none); with distinct names and no overflow,
    [args[name]] then holds that fallback.  In particular
    [[['type', null, ['standard','update','speed'], 'standard']]] invoked
    with zero arguments binds [args.type === 'standard']. *)
Theorem bind_trailing_fallback (ds : list decl) (ps : list param) (args : list str)
    (obj : gmap str argv) (w : list (nat * option str)) :
  parse_params ds = Ok ps -> bind ps args = Bound obj w ->
  map fst w = seq 0 (length ps) /\
  (forall i p, ps !! i = Some p -> length args <= i ->
     w !! i = Some (i, p_fallback p) /\
     exists n d o f, ds !! i = Some (DTuple n d o f) /\ p_fallback p = or_null f) /\
  (length args <= length ps ->
   (forall j k qj qk, ps !! j = Some qj -> ps !! k = Some qk -> p_name qj = p_name qk -> j = k) ->
   forall i p, ps !! i = Some p -> length args <= i ->
     obj !! p_name p = Some (AStr (p_fallback p))) /\
  match run type_decls [] with
  | RunBody o => o !! lit "type" = Some (AStr (Some (lit "standard")))
  | _ => False
  end.
Proof.
  intros Hps Hb.
  assert (Hw : w = map (fun j => (j, bound_value ps args j)) (seq 0 (length ps))).
  { unfold bind in Hb. destruct (Nat.eqb (length ps) 0) eqn:E0.
    - apply Nat.eqb_eq in E0. rewrite E0. injection Hb as _ <-. reflexivity.
    - rewrite (bind_loop_writes ps args _ 0 init_args [] obj w Hb).
      + rewrite Nat.sub_0_r. reflexivity.
      + destruct (length args <? length ps) eqn:Elt; [|apply Nat.ltb_ge in Elt]; lia. }
  split; [|split; [|split]].
  - rewrite Hw, map_map. apply map_id.
  - intros i p Hp Hi.
    assert (i < length ps) by (apply lookup_lt_is_Some; eauto).
    split.
    + rewrite Hw, lookup_map_list, lookup_seq_lt by lia. simpl. f_equal. f_equal.
      unfold bound_value. rewrite Hp.
      assert (args !! i = None) as -> by (apply lookup_ge_None; exact Hi). reflexivity.
    + exact (parse_params_fallback ds ps i p Hps Hp).
  - intros Hlen Hdist i p Hp Hi.
    assert (i < length ps) by (apply lookup_lt_is_Some; eauto).
    unfold bind in Hb. destruct (Nat.eqb (length ps) 0) eqn:E0; [apply Nat.eqb_eq in E0; lia|].
    assert (Hn : (if length args <? length ps then length ps else length args) = length ps).
    { destruct (length args <? length ps) eqn:Elt; [reflexivity|apply Nat.ltb_ge in Elt; lia]. }
    rewrite Hn in Hb.
    rewrite (bind_loop_values ps args _ 0 init_args [] obj w Hb ltac:(lia) Hdist i p ltac:(lia) Hp).
    assert (args !! i = None) as -> by (apply lookup_ge_None; exact Hi). reflexivity.
  - vm_compute. reflexivity.
Qed.

Lemma bind_trailing_fallback_witness :
  match parse_params type_decls with
  | Ok ps => match bind ps [] with
             | Bound obj w => w = [(0, Some (lit "standard"))] /\
                              obj !! lit "type" = Some (AStr (Some (lit "standard")))
             | _ => False
             end
  | Exn _ => False
  end.
Proof.
  destruct (parse_params type_decls) as [ps|e] eqn:Hps; [|vm_compute in Hps; discriminate].
  assert (Hps' := Hps). vm_compute in Hps'. injection Hps' as <-.
  set (ps0 := [_]).
  destruct (bind ps0 []) as [obj w| |] eqn:Hb; [|vm_compute in Hb; discriminate ..].
  destruct (bind_trailing_fallback type_decls _ [] obj w Hps Hb) as (Hfst & Hfb & Hobj & _).
  destruct (Hfb 0 _ eq_refl ltac:(simpl; lia)) as [Hw0 _].
  split.
  - destruct w as [|x [|y w]]; simpl in Hfst; try discriminate.
    simpl in Hw0. injection Hw0 as ->. reflexivity.
  - assert (Hdist : forall j k qj qk, ps0 !! j = Some qj -> ps0 !! k = Some qk ->
                     p_name qj = p_name qk -> j = k).
    { intros j k qj qk Hj Hk _. destruct j as [|j]; [|destruct j; discriminate].
      destruct k as [|k]; [reflexivity|destruct k; discriminate]. }
    exact (Hobj ltac:(simpl; lia) Hdist 0 _ eq_refl ltac:(simpl; lia)).
Defined.

Lemma lookup_init_args : init_args !! overflow_key = Some (AArr []).
Proof. reflexivity. Qed.

Lemma bind_loop_overflow (ps : list param) (args : list str) n i obj w l :
  (forall k q, ps !! k = Some q -> p_name q <> overflow_key) ->
  obj !! overflow_key = Some (AArr l) -> l = drop (length ps) (take i args) ->
  length ps <= i + n -> length args <= i + n ->
  (i + n = length ps \/ i + n = length args) ->
  (exists m, bind_loop ps args i n obj w = MissingArgument m) \/
  (exists obj' w', bind_loop ps args i n obj w = Bound obj' w' /\
     obj' !! overflow_key = Some (AArr (drop (length ps) args))).
Proof.
  intros Hnames. revert i obj w l.
  induction n as [|n IH]; intros i obj w l Hobj Hl H1 H2 H3; simpl.
  - right. exists obj, w. split; [reflexivity|]. rewrite Hobj, Hl.
    rewrite take_ge by lia. reflexivity.
  - destruct (ps !! i) as [p|] eqn:Hp.
    + destruct (p_required p && is_null (resolve_arg p (args !! i))).
      * left. eexists. reflexivity.
      * assert (i < length ps) by (apply lookup_lt_is_Some; eauto).
        apply (IH (S i) _ _ l); [| |lia|lia|lia].
        -- rewrite lookup_insert_ne; [exact Hobj|]. intros He. apply (Hnames i p Hp). auto.
        -- rewrite Hl. rewrite !drop_ge; [reflexivity| rewrite length_take; lia ..].
    + assert (length ps <= i) by (apply lookup_ge_None; exact Hp).
      rewrite Hobj.
      assert (i < length args) as Hia by lia.
      destruct (lookup_lt_is_Some_2 args i Hia) as [a Ha].
      apply (IH (S i) _ _ (l ++ [a])); [| |lia|lia|lia].
      * rewrite Ha. apply lookup_insert_eq.
      * rewrite Hl, (take_S_r args i a Ha), drop_app_le; [reflexivity|].
        rewrite length_take. lia.
Qed.

(** C6 (binding, [Executable.run]): for a command declaring at least one
    parameter, none of them named [_], the raw arguments beyond the
    declared count are kept in arrival order in [args._] whenever the
    command body is called. *)
Theorem run_overflow (ds : list decl) (ps : list param) (args : list str) :
  parse_params ds = Ok ps -> ps <> [] ->
  (forall k q, ps !! k = Some q -> p_name q <> overflow_key) ->
  (exists m, run ds args = RunMissing m) \/
  (exists obj, run ds args = RunBody obj /\
     obj !! overflow_key = Some (AArr (drop (length ps) args))).
Proof.
  intros Hps Hne Hnames. unfold run. rewrite Hps. unfold bind.
  destruct (Nat.eqb (length ps) 0) eqn:E0.
  { apply Nat.eqb_eq, length_zero_iff_nil in E0. contradiction. }
  destruct (bind_loop_overflow ps args
              (if length args <? length ps then length ps else length args)
              0 init_args [] [] Hnames lookup_init_args)
    as [[m Hm]|(obj & w & Hb & Ho)].
  - simpl. destruct (length ps); reflexivity.
  - destruct (length args <? length ps) eqn:Elt; [apply Nat.ltb_lt in Elt|apply Nat.ltb_ge in Elt]; lia.
  - destruct (length args <? length ps) eqn:Elt; [apply Nat.ltb_lt in Elt|apply Nat.ltb_ge in Elt]; lia.
  - destruct (length args <? length ps) eqn:Elt; [left|right]; lia.
  - left. exists m. rewrite Hm. reflexivity.
  - right. exists obj. rewrite Hb. split; [reflexivity|exact Ho].
Qed.

Lemma run_overflow_witness :
  match run one_param [lit "x"; lit "y"; lit "z"] with
  | RunBody obj => obj !! overflow_key = Some (AArr [lit "y"; lit "z"])
  | _ => False
  end.
Proof.
  destruct (parse_params one_param) as [ps|e] eqn:Hps; [|vm_compute in Hps; discriminate].
  assert (Hps' := Hps). vm_compute in Hps'. injection Hps' as <-.
  destruct (run_overflow one_param _ [lit "x"; lit "y"; lit "z"] Hps ltac:(discriminate))
    as [[m Hm]|(obj & Hrun & Ho)].
  - intros k q Hk. destruct k as [|k]; [|destruct k; discriminate].
    injection Hk as <-. discriminate.
  - vm_compute in Hm. discriminate.
  - rewrite Hrun. exact Ho.
Defined.

(** The claim as stated fails for a command without parameters: the
    binding loop is skipped and [args._] stays empty. *)
Lemma run_overflow_no_params :
  run [] [lit "x"] = RunBody init_args /\ init_args !! overflow_key = Some (AArr []).
Proof. split; reflexivity. Qed.

End BindFacts.

(** ** Forms *)

Module FormFacts.

(** C7 (forms, [Executable.form]): a read failure on a field stops the
    collection at that field, so later fields are not read, and the
    result carries the error together with the bag collected from the
    earlier fields. *)
Theorem form_read_error (paths : gmap str str) (f : field) (fs' : list field)
    (inp inp' : list read_result) (b : gmap str str) (r : read_result) (e : js_error) :
  readline_while (negb (starts_q (f_name f))) inp = Some (r, inp') ->
  rerror r = Some e ->
  form_loop paths (f :: fs') inp b = FormError b e.
Proof. intros Hr He. simpl. rewrite Hr, He. reflexivity. Qed.

Lemma form_read_error_witness :
  form_loop ∅ (skipn 1 title_slug_fields)
    [{| answer := []; rerror := Some read_failure |}] {[ lit "title" := lit "x" ]}
  = FormError {[ lit "title" := lit "x" ]} read_failure.
Proof. apply form_read_error with (inp' := []) (r := {| answer := []; rerror := Some read_failure |}); reflexivity. Defined.

(** The claim as stated fails: the first field is answered, the second
    read fails, and the returned result carries the partial bag. *)
Lemma form_read_error_partial_bag :
  form ∅ title_slug_fields [typed (lit "x"); {| answer := []; rerror := Some read_failure |}]
  = FormError {[ lit "title" := lit "x" ]} read_failure /\
  ({[ lit "title" := lit "x" ]} : gmap str str) <> ∅.
Proof.
  split; [vm_compute; reflexivity|].
  intros H. assert (Hl := f_equal (lookup (lit "title")) H). vm_compute in Hl. discriminate.
Qed.

End FormFacts.

(** ** The matcher *)

Module RegexFacts.

Lemma first_some_in {A} (f : nat -> option A) l x :
  first_some f l = Some x -> exists j, In j l /\ f j = Some x.
Proof.
  induction l as [|j l IH]; simpl; [discriminate|].
  destruct (f j) eqn:E.
  - intros [= <-]. exists j. auto.
  - intros H. destruct (IH H) as (j' & ? & ?). exists j'. auto.
Qed.

Lemma first_some_not_None {A} (f : nat -> option A) l j :
  In j l -> f j <> None -> first_some f l <> None.
Proof.
  induction l as [|j' l IH]; simpl; [tauto|].
  intros Hin Hj. destruct Hin as [E|Hin].
  - subst j'. destruct (f j); [discriminate|congruence].
  - destruct (f j'); [discriminate|auto].
Qed.

Lemma in_countdown1 n j : In j (countdown1 n) <-> 1 <= j <= n.
Proof.
  induction n as [|n IH]; simpl; [lia|]. rewrite IH. lia.
Qed.

Lemma span_le p s : span p s <= length s.
Proof. induction s as [|c s IH]; simpl; [lia|]. destruct (p c); simpl; lia. Qed.

Lemma span_prefix p s j :
  j <= span p s -> forallb p (take j s) = true.
Proof.
  revert j. induction s as [|c s IH]; intros j Hj; simpl in *.
  - destruct j; reflexivity.
  - destruct (p c) eqn:E; destruct j as [|j]; simpl; auto; [|lia].
    rewrite E. apply IH. lia.
Qed.

Lemma span_app p d s : forallb p d = true -> length d <= span p (d ++ s).
Proof.
  induction d as [|c d IH]; simpl; [lia|].
  intros H. apply andb_true_iff in H as [Hc Hd]. rewrite Hc. specialize (IH Hd). lia.
Qed.

Lemma close_take (d s : str) : take (length (d ++ s) - length s) (d ++ s) = d.
Proof.
  rewrite length_app. replace (length d + length s - length s) with (length d) by lia.
  apply take_app_length.
Qed.

(** Inversion of one step of [Regex.run]. *)

Lemma run_char_inv c r s o cs x :
  Regex.run (AChar c :: r) s o cs = Some x -> exists s', s = c :: s' /\ Regex.run r s' o cs = Some x.
Proof.
  simpl. destruct s as [|c' s']; [discriminate|].
  destruct (ascii_dec c c') as [<-|]; [|discriminate]. eauto.
Qed.

Lemma run_star_inv p r s o cs x :
  Regex.run (AStar p :: r) s o cs = Some x ->
  exists d s', s = d ++ s' /\ forallb p d = true /\ Regex.run r s' o cs = Some x.
Proof.
  simpl. intros H. apply first_some_in in H as (j & Hin & H).
  assert (j <= span p s) as Hj.
  { apply in_app_or in Hin as [Hin|[<-|[]]]; [apply in_countdown1 in Hin|]; lia. }
  exists (take j s), (drop j s). split; [symmetry; apply take_drop|].
  split; [apply span_prefix; exact Hj|exact H].
Qed.

Lemma run_plus_inv p r s o cs x :
  Regex.run (APlus p :: r) s o cs = Some x ->
  exists d s', d <> [] /\ s = d ++ s' /\ forallb p d = true /\ Regex.run r s' o cs = Some x.
Proof.
  simpl. intros H. apply first_some_in in H as (j & Hin & H).
  apply in_countdown1 in Hin.
  exists (take j s), (drop j s). split.
  - pose proof (span_le p s). intros Ht.
    assert (length (take j s) = 0) as Hl by (rewrite Ht; reflexivity).
    rewrite length_take in Hl. lia.
  - split; [symmetry; apply take_drop|].
    split; [apply span_prefix; lia|exact H].
Qed.

Lemma run_opt_inv c r s o cs x :
  Regex.run (AOpt c :: r) s o cs = Some x ->
  exists bang s', (bang = [] \/ bang = [c]) /\ s = bang ++ s' /\ Regex.run r s' o cs = Some x.
Proof.
  simpl. destruct s as [|c' s'].
  - intros H. exists [], []. auto.
  - destruct (ascii_dec c c') as [<-|Hne].
    + destruct (Regex.run r s' o cs) eqn:E.
      * intros [= <-]. exists [c], s'. auto.
      * intros H. exists [], (c :: s'). auto.
    + intros H. exists [], (c' :: s'). auto.
Qed.

Lemma run_open g r s o cs : Regex.run (AOpen g :: r) s o cs = Regex.run r s ((g, s) :: o) cs.
Proof. reflexivity. Qed.

Lemma run_close g r s o cs :
  Regex.run (AClose g :: r) s o cs =
  match assoc g o with
  | Some s0 => Regex.run r s o ((g, take (length s0 - length s) s0) :: cs)
  | None => Regex.run r s o cs
  end.
Proof. reflexivity. Qed.

Lemma run_nil s o cs : Regex.run [] s o cs = Some (s, cs).
Proof. reflexivity. Qed.

(** Forward steps: a match exists. *)

Lemma fwd_nil s : forall o cs, Regex.run [] s o cs <> None.
Proof. discriminate. Qed.

Lemma fwd_char c r s :
  (forall o cs, Regex.run r s o cs <> None) -> forall o cs, Regex.run (AChar c :: r) (c :: s) o cs <> None.
Proof. intros H o cs. simpl. destruct (ascii_dec c c) as [_|]; [apply H|congruence]. Qed.

Lemma fwd_open g r s :
  (forall o cs, Regex.run r s o cs <> None) -> forall o cs, Regex.run (AOpen g :: r) s o cs <> None.
Proof. intros H o cs. apply H. Qed.

Lemma fwd_close g r s :
  (forall o cs, Regex.run r s o cs <> None) -> forall o cs, Regex.run (AClose g :: r) s o cs <> None.
Proof. intros H o cs. rewrite run_close. destruct (assoc g o); apply H. Qed.

Lemma fwd_star p r d s :
  forallb p d = true -> (forall o cs, Regex.run r s o cs <> None) ->
  forall o cs, Regex.run (AStar p :: r) (d ++ s) o cs <> None.
Proof.
  intros Hd H o cs. simpl. apply (first_some_not_None _ _ (length d)).
  - pose proof (span_app p d s Hd). apply in_or_app.
    destruct (length d) as [|n] eqn:E; [right; left; reflexivity|].
    left. apply in_countdown1. lia.
  - rewrite drop_app_length. apply H.
Qed.

Lemma fwd_plus p r d s :
  d <> [] -> forallb p d = true -> (forall o cs, Regex.run r s o cs <> None) ->
  forall o cs, Regex.run (APlus p :: r) (d ++ s) o cs <> None.
Proof.
  intros Hne Hd H o cs. simpl. apply (first_some_not_None _ _ (length d)).
  - pose proof (span_app p d s Hd). apply in_countdown1.
    destruct d; [congruence|simpl in *; lia].
  - rewrite drop_app_length. apply H.
Qed.

Lemma fwd_opt c r bang s :
  (bang = [] \/ bang = [c]) -> (forall o cs, Regex.run r s o cs <> None) ->
  forall o cs, Regex.run (AOpt c :: r) (bang ++ s) o cs <> None.
Proof.
  intros [->| ->] H o cs; simpl.
  - destruct s as [|c' s']; [apply H|].
    destruct (ascii_dec c c'); [|apply H].
    destruct (Regex.run r s' o cs); [discriminate|apply H].
  - destruct (ascii_dec c c) as [_|]; [|congruence].
    destruct (Regex.run r s o cs) eqn:E; [discriminate|]. exfalso. exact (H o cs E).
Qed.


(** ** The bag expression *)

Lemma re_bag_sound (s rest : str) (cs : caps) :
  Regex.run re_bag s [] [] = Some (rest, cs) ->
  exists d1 bang key d3,
    forallb decor d1 = true /\ (bang = [] \/ bang = ["!"%char]) /\ key <> [] /\
    forallb alnum key = true /\ forallb decor d3 = true /\
    s = "{"%char :: "{"%char :: d1 ++ bang ++ key ++ d3 ++ "}"%char :: "}"%char :: rest /\
    cs = [(3, d3); (2, bang ++ key); (1, d1)].
Proof.
  unfold re_bag. intros H.
  apply run_char_inv in H as (s1 & -> & H).
  apply run_char_inv in H as (s2 & -> & H).
  rewrite run_open in H.
  apply run_star_inv in H as (d1 & s3 & -> & Hd1 & H).
  rewrite run_close in H. cbn [assoc Nat.eqb] in H. rewrite close_take in H.
  rewrite run_open in H.
  apply run_opt_inv in H as (bang & s4 & Hbang & -> & H).
  apply run_plus_inv in H as (key & s5 & Hkne & -> & Hkey & H).
  rewrite run_close in H. cbn [assoc Nat.eqb] in H.
  rewrite (app_assoc bang key s5), close_take in H.
  rewrite run_open in H.
  apply run_star_inv in H as (d3 & s6 & -> & Hd3 & H).
  rewrite run_close in H. cbn [assoc Nat.eqb] in H. rewrite close_take in H.
  apply run_char_inv in H as (s7 & -> & H).
  apply run_char_inv in H as (s8 & -> & H).
  rewrite run_nil in H. injection H as <- <-.
  exists d1, bang, key, d3. repeat split; auto.
Qed.

Lemma re_bag_exists d1 bang key d3 rest :
  forallb decor d1 = true -> (bang = [] \/ bang = ["!"%char]) -> key <> [] ->
  forallb alnum key = true -> forallb decor d3 = true ->
  Regex.run re_bag ("{"%char :: "{"%char :: d1 ++ bang ++ key ++ d3 ++ "}"%char :: "}"%char :: rest)
    [] [] <> None.
Proof.
  intros Hd1 Hbang Hk Hkey Hd3. unfold re_bag.
  apply fwd_char. apply fwd_char. apply fwd_open. apply fwd_star; [exact Hd1|].
  apply fwd_close. apply fwd_open. apply fwd_opt; [exact Hbang|].
  apply fwd_plus; [exact Hk|exact Hkey|]. apply fwd_close. apply fwd_open.
  apply fwd_star; [exact Hd3|]. apply fwd_close.
  apply fwd_char. apply fwd_char. apply fwd_nil.
Qed.

Lemma span_unique (p : ascii -> bool) a b u v :
  forallb p a = true -> forallb p b = true ->
  (exists x s, u = x :: s /\ p x = false) -> (exists y t, v = y :: t /\ p y = false) ->
  a ++ u = b ++ v -> a = b /\ u = v.
Proof.
  intros Ha Hb (x & s & -> & Hx) (y & t & -> & Hy).
  revert b Hb. induction a as [|a0 a IH]; intros [|b0 b] Hb Heq; simpl in *.
  - auto.
  - injection Heq as -> _. apply andb_true_iff in Hb as [Hb0 _]. congruence.
  - injection Heq as <- _. apply andb_true_iff in Ha as [Ha0 _]. congruence.
  - injection Heq as -> Heq. apply andb_true_iff in Ha as [_ Ha].
    apply andb_true_iff in Hb as [_ Hb]. destruct (IH Ha b Hb Heq) as [-> ->]. auto.
Qed.

Lemma decor_alnum c : decor c = true -> alnum c = false.
Proof. unfold decor. destruct (alnum c); [rewrite orb_true_r|]; auto. Qed.

Lemma alnum_bang : alnum "!"%char = false.
Proof. reflexivity. Qed.

Lemma forallb_drop (p : ascii -> bool) n l : forallb p l = true -> forallb p (drop n l) = true.
Proof.
  revert l. induction n as [|n IH]; intros [|c l] H; simpl in *; auto.
  apply andb_true_iff in H as [_ H]. auto.
Qed.

(** The group [(!?[a-zA-Z0-9]+)] starts with a non-decoration character. *)
Lemma g2_head bang key t :
  (bang = [] \/ bang = ["!"%char]) -> key <> [] -> forallb alnum key = true ->
  exists x s, bang ++ key ++ t = x :: s /\ decor x = false.
Proof.
  intros [->| ->] Hk Hkey.
  - destruct key as [|k0 key]; [congruence|]. simpl in *. exists k0, (key ++ t).
    split; [reflexivity|]. apply andb_true_iff in Hkey as [Hk0 _].
    unfold decor. rewrite Hk0, orb_true_r. reflexivity.
  - exists "!"%char, (key ++ t). split; reflexivity.
Qed.

(** After the key comes a non-alphanumeric character. *)
Lemma after_key_head d3 rest :
  forallb decor d3 = true ->
  exists z t, d3 ++ "}"%char :: "}"%char :: rest = z :: t /\ alnum z = false.
Proof.
  destruct d3 as [|d d3]; simpl; intros H.
  - exists "}"%char, ("}"%char :: rest). split; reflexivity.
  - apply andb_true_iff in H as [Hd _]. exists d, (d3 ++ "}"%char :: "}"%char :: rest).
    split; [reflexivity|]. apply decor_alnum. exact Hd.
Qed.

Lemma bang_key_unique bang' key' bang key A B :
  (bang' = [] \/ bang' = ["!"%char]) -> key' <> [] -> forallb alnum key' = true ->
  (bang = [] \/ bang = ["!"%char]) -> key <> [] -> forallb alnum key = true ->
  (exists z t, A = z :: t /\ alnum z = false) -> (exists z t, B = z :: t /\ alnum z = false) ->
  bang' ++ key' ++ A = bang ++ key ++ B -> bang' = bang /\ key' = key /\ A = B.
Proof.
  intros Hb' Hk' Ha' Hb Hk Ha HA HB Heq.
  destruct Hb' as [-> | ->], Hb as [-> | ->]; simpl in Heq.
  - destruct (span_unique alnum key' key A B Ha' Ha HA HB Heq). auto.
  - destruct key' as [|k0 key']; [congruence|]. injection Heq as -> _.
    simpl in Ha'. discriminate.
  - destruct key as [|k0 key]; [congruence|]. injection Heq as <- _.
    simpl in Ha. discriminate.
  - injection Heq as Heq. destruct (span_unique alnum key' key A B Ha' Ha HA HB Heq). auto.
Qed.

Lemma deco_ok_decor d : deco_ok d = true -> forallb decor d = true.
Proof.
  induction d as [|c d IH]; simpl; auto.
  intros H. apply andb_true_iff in H as [Hc Hd]. apply andb_true_iff in Hc as [Hc _].
  rewrite Hc. simpl. auto.
Qed.

Lemma noclose_decor_close d t : forallb decor d = true -> noclose_prefix (d ++ "}"%char :: t) = false.
Proof.
  induction d as [|c d IH]; simpl; auto.
  intros H. apply andb_true_iff in H as [Hc Hd].
  destruct (Ascii.eqb c "}"); [reflexivity|]. rewrite Hc. auto.
Qed.

Lemma close_unique d3 post r r0 :
  forallb decor d3 = true -> deco_ok post = true -> noclose_prefix r0 = true ->
  d3 ++ "}"%char :: "}"%char :: r = post ++ "}"%char :: "}"%char :: r0 -> d3 = post /\ r = r0.
Proof.
  revert d3. induction post as [|c post IH]; intros d3 Hd3 Hpost Hr0 Heq.
  - destruct d3 as [|x d3]; simpl in Heq.
    + injection Heq as ->. auto.
    + exfalso. injection Heq as -> Heq. simpl in Hd3. try apply andb_true_iff in Hd3 as [_ Hd3].
      assert (exists d t, forallb decor d = true /\ r0 = d ++ "}"%char :: t) as (d & t & Hd & ->).
      { destruct d3 as [|y d3]; simpl in Heq.
        - injection Heq as <-. exists [], r. auto.
        - injection Heq as -> <-. simpl in Hd3. try apply andb_true_iff in Hd3 as [_ Hd3].
          exists d3, ("}"%char :: r). auto. }
      rewrite noclose_decor_close in Hr0; [discriminate|exact Hd].
  - simpl in Hpost. apply andb_true_iff in Hpost as [Hc Hpost].
    destruct d3 as [|x d3]; simpl in Heq.
    + injection Heq as <- _. discriminate.
    + injection Heq as -> Heq. simpl in Hd3. try apply andb_true_iff in Hd3 as [_ Hd3].
      destruct (IH d3 Hd3 Hpost Hr0 Heq) as [-> ->]. auto.
Qed.

(** A match of the bag expression at the start of a placeholder ends at
    the placeholder's end when the following text does not continue the
    closing decoration with a brace. *)
Lemma ph_unique d1 bang' key' d3 rest pre bang key post R :
  forallb decor d1 = true -> (bang' = [] \/ bang' = ["!"%char]) -> key' <> [] ->
  forallb alnum key' = true -> forallb decor d3 = true ->
  deco_ok pre = true -> (bang = [] \/ bang = ["!"%char]) -> key <> [] ->
  forallb alnum key = true -> deco_ok post = true -> noclose_prefix R = true ->
  d1 ++ bang' ++ key' ++ d3 ++ "}"%char :: "}"%char :: rest =
  pre ++ bang ++ key ++ post ++ "}"%char :: "}"%char :: R ->
  d1 = pre /\ bang' ++ key' = bang ++ key /\ d3 = post /\ rest = R.
Proof.
  intros Hd1 Hb' Hk' Ha' Hd3 Hpre Hb Hk Ha Hpost HR Heq.
  pose proof (deco_ok_decor pre Hpre) as Hpre'. pose proof (deco_ok_decor post Hpost) as Hpost'.
  destruct (span_unique decor d1 pre _ _ Hd1 Hpre' (g2_head bang' key' _ Hb' Hk' Ha')
              (g2_head bang key _ Hb Hk Ha) Heq) as [-> Heq'].
  destruct (bang_key_unique bang' key' bang key _ _ Hb' Hk' Ha' Hb Hk Ha
              (after_key_head d3 rest Hd3) (after_key_head post R Hpost') Heq') as (-> & -> & Heq'').
  destruct (close_unique d3 post rest R Hd3 Hpost HR Heq'') as [-> ->]. auto.
Qed.



(** ** Scanning *)

Lemma scan_0_cons re c s :
  scan re (c :: s) 0 =
  match Regex.run re (c :: s) [] [] with
  | Some (rest, cs) =>
      PMatch (take (length (c :: s) - length rest) (c :: s)) cs ::
      match length (c :: s) - length rest with
      | 0 => PText c :: scan re s 0
      | S k => scan re s k
      end
  | None => PText c :: scan re s 0
  end.
Proof. reflexivity. Qed.


Lemma scan_skip re x R : scan re (x ++ R) (length x) = scan re R 0.
Proof. induction x as [|c x IH]; simpl; auto. Qed.

Lemma run_char_miss c c' r s o cs : c <> c' -> Regex.run (AChar c :: r) (c' :: s) o cs = None.
Proof. intros H. simpl. destruct (ascii_dec c c'); [congruence|reflexivity]. Qed.


Lemma group2_caps d3 g d1 : group 2 [(3, d3); (2, g); (1, d1)] = g.
Proof. reflexivity. Qed.


Lemma assemble_flag cb ps :
  snd (assemble cb ps) =
  existsb (fun pc => match pc with PMatch sub cs => snd (cb sub cs) | PText _ => false end) ps.
Proof.
  induction ps as [|[c|sub cs] ps IH]; simpl; auto.
  - destruct (assemble cb ps). exact IH.
  - destruct (cb sub cs), (assemble cb ps). simpl in *. congruence.
Qed.

Lemma existsb_ext {A} (f g : A -> bool) l : (forall x, f x = g x) -> existsb f l = existsb g l.
Proof. intros H. induction l as [|x l IH]; simpl; [reflexivity|]. rewrite H, IH. reflexivity. Qed.

Lemma bag_pass_flag (b : gmap str str) t :
  snd (replace_all re_bag (bag_cb b) t) = existsb (sets_breaked b) (scan re_bag t 0).
Proof.
  unfold replace_all. rewrite assemble_flag. apply existsb_ext. intros [c|sub cs]; [reflexivity|].
  unfold bag_cb, sets_breaked. destruct (starts_bang (group 2 cs)); [|reflexivity].
  destruct (js_get b (tail (group 2 cs))); reflexivity.
Qed.


Lemma replace_eq paths t b strict :
  replace paths t b strict =
  if snd (replace_all re_bag (bag_cb b) t) then (if strict then Exn ReplaceLoshError else Ok None)
  else if snd (replace_all re_path (path_cb paths) (fst (replace_all re_bag (bag_cb b) t)))
  then (if strict then Exn ReplaceLoshError else Ok None)
  else Ok (Some (fst (replace_all re_path (path_cb paths) (fst (replace_all re_bag (bag_cb b) t))))).
Proof.
  unfold replace. destruct (replace_all re_bag (bag_cb b) t) as [o f]. simpl.
  destruct f; [reflexivity|]. destruct (replace_all re_path (path_cb paths) o). reflexivity.
Qed.





(** ** Templates of literal text and placeholders *)

Lemma key_ok_inv k : key_ok k = true -> k <> [] /\ forallb alnum k = true.
Proof. intros H. destruct k; [discriminate|split; [discriminate|exact H]]. Qed.

Lemma bang_of_shape req : bang_of req = [] \/ bang_of req = ["!"%char].
Proof. destruct req; [right|left]; reflexivity. Qed.

Lemma seg_text_ph pre req key post R :
  seg_text (Ph pre req key post) ++ R =
  "{"%char :: "{"%char :: pre ++ bang_of req ++ key ++ post ++ "}"%char :: "}"%char :: R.
Proof. simpl. rewrite <- !app_assoc. reflexivity. Qed.

Lemma run_ph pre req key post R :
  deco_ok pre = true -> key_ok key = true -> deco_ok post = true -> noclose_prefix R = true ->
  Regex.run re_bag (seg_text (Ph pre req key post) ++ R) [] [] =
  Some (R, [(3, post); (2, bang_of req ++ key); (1, pre)]).
Proof.
  intros Hpre Hkey Hpost HR. destruct (key_ok_inv key Hkey) as [Hkne Hka].
  rewrite seg_text_ph.
  destruct (Regex.run re_bag _ [] []) as [[rest cs]|] eqn:E.
  - apply re_bag_sound in E as (d1 & bang' & key' & d3 & Hd1 & Hb' & Hk' & Ha' & Hd3 & Hs & ->).
    injection Hs as Hs.
    destruct (ph_unique d1 bang' key' d3 rest pre (bang_of req) key post R Hd1 Hb' Hk' Ha' Hd3
                Hpre (bang_of_shape req) Hkne Hka Hpost HR (eq_sym Hs)) as (-> & -> & -> & ->).
    reflexivity.
  - exfalso. refine (re_bag_exists pre (bang_of req) key post R (deco_ok_decor pre Hpre)
                       (bang_of_shape req) Hkne Hka (deco_ok_decor post Hpost) E).
Qed.

Lemma no_special_not_brace t c : no_special (c :: t) = true -> c <> "{"%char.
Proof. simpl. intros H ->. discriminate. Qed.

Lemma scan_lit t R : no_special t = true -> scan re_bag (t ++ R) 0 = map PText t ++ scan re_bag R 0.
Proof.
  induction t as [|c t IH]; intros H; [reflexivity|].
  pose proof (no_special_not_brace t c H) as Hc.
  simpl in H. apply andb_true_iff in H as [_ H].
  change ((c :: t) ++ R) with (c :: (t ++ R)). rewrite scan_0_cons.
  unfold re_bag at 1. rewrite run_char_miss by congruence. simpl. rewrite IH by exact H. reflexivity.
Qed.

Lemma scan_match re M rest cs :
  M <> [] -> Regex.run re (M ++ rest) [] [] = Some (rest, cs) ->
  scan re (M ++ rest) 0 = PMatch M cs :: scan re rest 0.
Proof.
  destruct M as [|m M]; [congruence|]. intros _ E.
  change ((m :: M) ++ rest) with (m :: (M ++ rest)) in *. rewrite scan_0_cons, E.
  replace (length (m :: M ++ rest) - length rest) with (S (length M))
    by (simpl; rewrite length_app; lia).
  change (m :: M ++ rest) with ((m :: M) ++ rest).
  rewrite (take_app_length (m :: M)). rewrite scan_skip. reflexivity.
Qed.

Lemma noclose_no_special t R :
  no_special t = true -> noclose_prefix R = true -> noclose_prefix (t ++ R) = true.
Proof.
  induction t as [|c t IH]; simpl; auto. intros H HR.
  apply andb_true_iff in H as [Hc H].
  unfold brace_or_at in Hc. destruct (Ascii.eqb c "}"); [rewrite orb_true_r in Hc; discriminate|].
  destruct (decor c); auto.
Qed.

Lemma noclose_deco d x t :
  deco_ok d = true -> decor x = false -> noclose_prefix (d ++ x :: t) = true.
Proof.
  intros Hd Hx. induction d as [|c d IH]; simpl in *.
  - destruct (Ascii.eqb x "}") eqn:E; [apply Ascii.eqb_eq in E; subst; discriminate|].
    rewrite Hx. reflexivity.
  - apply andb_true_iff in Hd as [Hc Hd]. apply andb_true_iff in Hc as [Hc Hb].
    unfold brace_or_at in Hb. destruct (Ascii.eqb c "}"); [rewrite orb_true_r in Hb; discriminate|].
    rewrite Hc. auto.
Qed.

Lemma noclose_template (b : gmap str str) ss :
  forallb (seg_ok b) ss = true -> noclose_prefix (template ss) = true.
Proof.
  induction ss as [|[t|pre req key post] ss IH]; simpl; auto.
  - intros H. apply andb_true_iff in H as [Ht H].
    unfold template in *. apply noclose_no_special; auto.
  - intros H. rewrite !andb_true_iff in H. destruct H as [[[[Hpre Hpost] Hkey] _] _].
    destruct (key_ok_inv key Hkey) as [Hkne Hka].
    unfold template. simpl. rewrite <- !app_assoc.
    destruct (g2_head (bang_of req) key (post ++ ["}"%char; "}"%char] ++ concat (map seg_text ss))
                (bang_of_shape req) Hkne Hka) as (x & s' & Hx & Hdx).
    rewrite Hx. apply noclose_deco; assumption.
Qed.


Lemma scan_template (b : gmap str str) ss :
  forallb (seg_ok b) ss = true -> scan re_bag (template ss) 0 = concat (map seg_pieces ss).
Proof.
  induction ss as [|[t|pre req key post] ss IH]; intros H; [reflexivity| |].
  - simpl in H. apply andb_true_iff in H as [Ht H].
    change (template (Lit t :: ss)) with (t ++ template ss).
    rewrite scan_lit by exact Ht. rewrite IH by exact H. reflexivity.
  - pose proof (noclose_template b ss) as Hnc.
    simpl in H. apply andb_true_iff in H as [Hp H].
    rewrite !andb_true_iff in Hp. destruct Hp as [[[Hpre Hpost] Hkey] _].
    change (template (Ph pre req key post :: ss)) with (seg_text (Ph pre req key post) ++ template ss).
    rewrite (scan_match re_bag _ _ [(3, post); (2, bang_of req ++ key); (1, pre)]);
      [| simpl; discriminate | apply run_ph; auto].
    rewrite IH by exact H. reflexivity.
Qed.

Lemma assemble_text cb t ps :
  assemble cb (map PText t ++ ps) = (t ++ fst (assemble cb ps), snd (assemble cb ps)).
Proof.
  induction t as [|c t IH]; simpl.
  - destruct (assemble cb ps); reflexivity.
  - rewrite IH. reflexivity.
Qed.

Lemma assemble_match cb m cs ps :
  assemble cb (PMatch m cs :: ps) =
  (fst (cb m cs) ++ fst (assemble cb ps), snd (cb m cs) || snd (assemble cb ps)).
Proof. simpl. destruct (cb m cs), (assemble cb ps). reflexivity. Qed.

Lemma assemble_text_nil cb t : assemble cb (map PText t) = (t, false).
Proof. rewrite <- (app_nil_r (map PText t)), assemble_text. simpl. rewrite app_nil_r. reflexivity. Qed.

Lemma starts_bang_alnum c s : alnum c = true -> starts_bang (c :: s) = false.
Proof. destruct c as [[] [] [] [] [] [] [] []]; intros H; first [reflexivity|discriminate]. Qed.

Lemma bag_cb_ph (b : gmap str str) pre req key post :
  seg_ok b (Ph pre req key post) = true ->
  bag_cb b (seg_text (Ph pre req key post)) [(3, post); (2, bang_of req ++ key); (1, pre)] =
  (render b (Ph pre req key post), false).
Proof.
  simpl. intros H. rewrite !andb_true_iff in H. destruct H as [[[_ _] Hkey] Hv].
  destruct (b !! key) as [v|] eqn:Ev; [|discriminate].
  pose proof (js_get_own b key v Ev) as Ej.
  destruct (key_ok_inv key Hkey) as [Hkne Hka].
  unfold bag_cb. rewrite group2_caps. destruct req.
  - cbn [bang_of lit list_ascii_of_string app starts_bang tail].
    rewrite Ej. unfold fill. rewrite Ej. reflexivity.
  - cbn [bang_of app]. destruct key as [|k0 key]; [congruence|].
    simpl in Hka. apply andb_true_iff in Hka as [Hk0 _].
    rewrite starts_bang_alnum by exact Hk0. unfold fill. rewrite Ej. reflexivity.
Qed.

Lemma assemble_template (b : gmap str str) ss :
  forallb (seg_ok b) ss = true ->
  assemble (bag_cb b) (concat (map seg_pieces ss)) = (concat (map (render b) ss), false).
Proof.
  induction ss as [|sg ss IH]; intros H; [reflexivity|].
  simpl in H. apply andb_true_iff in H as [Hs H].
  destruct sg as [t|pre req key post].
  - cbn [map concat seg_pieces render]. rewrite assemble_text, IH by exact H. reflexivity.
  - change (concat (map seg_pieces (Ph pre req key post :: ss))) with
      (PMatch (seg_text (Ph pre req key post)) [(3, post); (2, bang_of req ++ key); (1, pre)]
         :: concat (map seg_pieces ss)).
    rewrite assemble_match, (bag_cb_ph b pre req key post Hs), IH by exact H. reflexivity.
Qed.

Lemma forallb_impl (p q : ascii -> bool) l :
  (forall c, p c = true -> q c = true) -> forallb p l = true -> forallb q l = true.
Proof.
  intros Hpq. induction l as [|c l IH]; simpl; auto.
  intros H. apply andb_true_iff in H as [Hc H]. rewrite (Hpq c Hc). simpl. auto.
Qed.

Lemma no_special_no_at t : no_special t = true -> no_at t = true.
Proof.
  apply forallb_impl. intros c. unfold brace_or_at.
  destruct (Ascii.eqb c "@"); [rewrite !orb_true_r; discriminate|reflexivity].
Qed.

Lemma deco_ok_no_special d : deco_ok d = true -> no_special d = true.
Proof. apply forallb_impl. intros c H. apply andb_true_iff in H as [_ H]. exact H. Qed.

Lemma deco_ok_no_at d : deco_ok d = true -> no_at d = true.
Proof. intros H. apply no_special_no_at, deco_ok_no_special, H. Qed.

Lemma no_at_app x y : no_at (x ++ y) = no_at x && no_at y.
Proof. apply forallb_app. Qed.

Lemma no_special_app x y : no_special (x ++ y) = no_special x && no_special y.
Proof. apply forallb_app. Qed.

Lemma render_no_at (b : gmap str str) ss :
  forallb (seg_ok b) ss = true -> no_at (concat (map (render b) ss)) = true.
Proof.
  induction ss as [|[t|pre req key post] ss IH]; intros H; [reflexivity| |];
    simpl in H; apply andb_true_iff in H as [Hs H];
    cbn [map concat]; rewrite no_at_app, IH by exact H; rewrite andb_true_r.
  - apply no_special_no_at. exact Hs.
  - simpl in Hs. rewrite !andb_true_iff in Hs. destruct Hs as [[[Hpre Hpost] _] Hv].
    simpl. destruct (b !! key) as [v|]; [|reflexivity].
    destruct v as [|c v]; [reflexivity|].
    rewrite !no_at_app, (deco_ok_no_at pre Hpre), (deco_ok_no_at post Hpost), Hv. reflexivity.
Qed.

Lemma scan_path_noat t : no_at t = true -> scan re_path t 0 = map PText t.
Proof.
  induction t as [|c t IH]; intros H; [reflexivity|].
  simpl in H. apply andb_true_iff in H as [Hc H].
  rewrite scan_0_cons. unfold re_path at 1. rewrite run_char_miss.
  - simpl. rewrite IH by exact H. reflexivity.
  - intros <-. discriminate.
Qed.

(** Substitution of a template of literal text and placeholders whose
    keys are all bound to values without [@]. *)
Lemma replace_segments (paths b : gmap str str) ss strict :
  forallb (seg_ok b) ss = true ->
  replace paths (template ss) b strict = Ok (Some (concat (map (render b) ss))).
Proof.
  intros H.
  assert (Hb : replace_all re_bag (bag_cb b) (template ss) = (concat (map (render b) ss), false)).
  { unfold replace_all. rewrite (scan_template b ss H). apply assemble_template, H. }
  assert (Hp : replace_all re_path (path_cb paths) (concat (map (render b) ss)) =
               (concat (map (render b) ss), false)).
  { unfold replace_all. rewrite scan_path_noat by (apply (render_no_at b), H).
    apply assemble_text_nil. }
  rewrite replace_eq, Hb. cbn [fst snd]. rewrite Hp. reflexivity.
Qed.

Lemma render_no_special (b : gmap str str) ss :
  forallb (seg_ok b) ss = true -> (forall key v, b !! key = Some v -> no_special v = true) ->
  no_special (concat (map (render b) ss)) = true.
Proof.
  intros H Hv. induction ss as [|[t|pre req key post] ss IH]; [reflexivity| |];
    simpl in H; apply andb_true_iff in H as [Hs H];
    cbn [map concat]; rewrite no_special_app, IH by exact H; rewrite andb_true_r.
  - exact Hs.
  - simpl in Hs. rewrite !andb_true_iff in Hs. destruct Hs as [[[Hpre Hpost] _] _].
    simpl. destruct (b !! key) as [v|] eqn:Ev; [|reflexivity].
    destruct v as [|c v]; [reflexivity|].
    rewrite !no_special_app, (deco_ok_no_special pre Hpre), (deco_ok_no_special post Hpost),
      (Hv key _ Ev). reflexivity.
Qed.

(** C9 (placeholders, [Executable.replace]): a template made of literal
    text without braces and [@] and of placeholders [{{pre key post}}]
    (alphanumeric key, decorations from [[^!a-zA-Z0-9]] without braces
    and [@]) whose keys are all bound to values without [@] is returned,
    in both modes, with each placeholder replaced by [pre], the value and
    [post] (by nothing for an empty value); the result holds no brace
    when no value does. *)
Theorem replace_plain_placeholders (paths b : gmap str str) (ss : list seg) (strict : bool) :
  forallb (seg_ok b) ss = true ->
  replace paths (template ss) b strict = Ok (Some (concat (map (render b) ss))) /\
  ((forall key v, b !! key = Some v -> no_special v = true) ->
   no_special (concat (map (render b) ss)) = true).
Proof.
  intros H. split.
  - apply replace_segments. exact H.
  - apply render_no_special. exact H.
Qed.

Lemma replace_plain_placeholders_witness :
  replace ∅ (template letter_segs) letter_bag false = Ok (Some (lit "Dear Ada, see <x1>")).
Proof. exact (proj1 (replace_plain_placeholders ∅ letter_bag letter_segs false eq_refl)). Defined.

(** The claim as stated fails: a bag value is not inserted verbatim when
    it holds a path macro, and a value holding a placeholder leaves its
    delimiters in the result. *)
Lemma replace_value_rewritten :
  replace hello_paths (lit "{{a}}") {[ lit "a" := lit "@root" ]} false = Ok (Some (lit "/x")) /\
  replace ∅ (lit "{{a}}") {[ lit "a" := lit "{{b}}" ]} false = Ok (Some (lit "{{b}}")).
Proof. split; vm_compute; reflexivity. Qed.

(** C10 (placeholders, [Executable.replace]): in the bag pass only a
    required placeholder whose key reads [undefined] (no own entry and no
    [Object.prototype] property) sets [breaked]; a required
    placeholder whose key is bound to the empty string does not, and it
    is replaced, decorations included, by the empty string, so a template
    of literal text and placeholders all bound is returned in both
    modes. *)
Theorem replace_empty_required (paths b : gmap str str) (ss : list seg) (strict : bool) :
  forallb (seg_ok b) ss = true ->
  (forall t, snd (replace_all re_bag (bag_cb b) t) = existsb (sets_breaked b) (scan re_bag t 0)) /\
  (forall sub pre key post, b !! key = Some [] ->
     bag_cb b sub [(3, post); (2, "!"%char :: key); (1, pre)] = ([], false)) /\
  (forall pre key post, b !! key = Some [] -> render b (Ph pre true key post) = []) /\
  replace paths (template ss) b strict = Ok (Some (concat (map (render b) ss))).
Proof.
  intros H. split; [|split; [|split]].
  - apply bag_pass_flag.
  - intros sub pre key post Hk. unfold bag_cb, fill. cbn [group assoc Nat.eqb starts_bang tail].
    rewrite (js_get_own b key [] Hk). reflexivity.
  - intros pre key post Hk. simpl. rewrite Hk. reflexivity.
  - apply replace_segments. exact H.
Qed.

Lemma replace_empty_required_witness :
  replace ∅ (template empty_required_segs) {[ lit "k" := [] ]} true = Ok (Some (lit "ab")).
Proof.
  exact (proj2 (proj2 (proj2 (replace_empty_required ∅ {[ lit "k" := [] ]} empty_required_segs true
                                eq_refl)))).
Defined.

End RegexFacts.


(** ** Forms and the placeholder engine *)

Module FormReplaceFacts.
Import RegexFacts.

Lemma default_template name :
  lit "{{" ++ name ++ lit "}}" = template [Ph [] false name []].
Proof. unfold template, seg_text, bang_of. cbn [map concat]. rewrite app_nil_r. reflexivity. Qed.

(** The lenient [replace] never throws: it returns a string or [null]. *)
Lemma replace_lenient (paths : gmap str str) (t : str) (b : gmap str str) :
  exists v, replace paths t b false = Ok v.
Proof.
  unfold replace. destruct (replace_all re_bag (bag_cb b) t) as [o f].
  destruct f; [eauto|]. destruct (replace_all re_path (path_cb paths) o) as [o' f'].
  destruct f'; simpl; eauto.
Qed.

(** C3 (forms, [Executable.form]): fields are taken in declaration
    order; for a field whose answer is read without error, with any
    transformer, the loop stores the raw answer under the field name,
    resolves the transformer (the default ["{{name}}"] when it is missing
    or empty) with the lenient [replace] against that bag, never stops
    there, and goes on with the next field on the rest of the input with
    the result stored under the name, or the name deleted when the result
    is empty or [null] (a field named [__proto__] stores nothing, as the
    assignment of a string to it is ignored). A field without transformer whose name is
    alphanumeric and whose answer is non-empty and free of [@] stores the
    raw answer verbatim, and the title/slug form answered "Hello" twice
    ends with the bag {title: "Hello", slug: "Hello-slug"}. *)
Theorem form_default_transformer (paths b : gmap str str) f fs inp r inp' name :
  readline_while (negb (starts_q (f_name f))) inp = Some (r, inp') ->
  rerror r = None ->
  (if negb (starts_q (f_name f)) then f_name f else tail (f_name f)) = name ->
  form_loop paths (f :: fs) inp b =
    form_loop paths fs inp'
      (match replace paths
               (match f_transformer f with
                | Some t => if truthy (Some t) then t else lit "{{" ++ name ++ lit "}}"
                | None => lit "{{" ++ name ++ lit "}}"
                end) (js_set b name (answer r)) false with
       | Ok (Some v) => if truthy (Some v) then js_set b name v else delete name b
       | _ => delete name b
       end) /\
  (f_transformer f = None -> key_ok name = true -> answer r <> [] ->
   no_at (answer r) = true ->
   form_loop paths (f :: fs) inp b = form_loop paths fs inp' (<[name := answer r]> b)) /\
  form ∅ title_slug_fields [typed (lit "Hello"); typed (lit "Hello")] =
  FormOk (<[ lit "slug" := lit "Hello-slug" ]> {[ lit "title" := lit "Hello" ]}).
Proof.
  intros Hread Herr Hname. split; [|split; [|vm_compute; reflexivity]].
  - cbn [form_loop]. rewrite Hread, Herr, Hname.
    set (t := match f_transformer f with
              | Some t => if truthy (Some t) then t else lit "{{" ++ name ++ lit "}}"
              | None => lit "{{" ++ name ++ lit "}}"
              end).
    destruct (replace_lenient paths t (js_set b name (answer r))) as [v Hv].
    rewrite Hv. destruct v as [v|].
    + destruct (truthy (Some v)).
      * rewrite js_set_set. reflexivity.
      * rewrite delete_js_set. reflexivity.
    + rewrite delete_js_set. reflexivity.
  - intros Htr Hkey Hne Hat.
    assert (Hp : name <> lit "__proto__") by (intros ->; discriminate Hkey).
    cbn [form_loop]. rewrite Hread, Herr, Htr, Hname, default_template.
    unfold js_set. rewrite bool_decide_eq_false_2 by exact Hp.
    rewrite replace_segments.
    + cbn [map concat render]. rewrite lookup_insert_eq.
      destruct (answer r) as [|c a] eqn:Ea; [congruence|].
      cbn [truthy app]. rewrite !app_nil_r. rewrite insert_insert_eq. reflexivity.
    + simpl. rewrite Hkey, lookup_insert_eq, Hat. reflexivity.
Qed.

Lemma form_default_transformer_witness :
  form_loop ∅ [title_field] [typed (lit "Hello")] ∅ =
  form_loop ∅ [] [] (<[ lit "title" := lit "Hello" ]> ∅).
Proof.
  refine (proj1 (proj2 (form_default_transformer ∅ ∅ title_field [] [typed (lit "Hello")]
                   (typed (lit "Hello")) [] (lit "title") _ _ _)) _ _ _ _);
    first [reflexivity | discriminate].
Defined.

(** The default transformer does not give back the raw answer verbatim:
    an answer with [@root] is rewritten by the path pass, and the name of
    a field is no placeholder key unless alphanumeric, then the template
    ["{{my-field}}"] itself is stored. *)
Lemma form_default_rewrites :
  form root_paths [title_field] [typed (lit "me@root")] =
  FormOk {[ lit "title" := lit "me/x" ]} /\
  form ∅ [{| f_name := lit "my-field"; f_prompt := lit "Field?"; f_transformer := None |}]
    [typed (lit "v")] =
  FormOk {[ lit "my-field" := lit "{{my-field}}" ]}.
Proof. split; vm_compute; reflexivity. Qed.

End FormReplaceFacts.

(** ** User input *)

Module InputFacts.

Lemma readline_while_refines (required : bool) (inp : list read_result) :
  readline_while required inp = readline_while_with (CondBool required) inp.
Proof.
  unfold readline_while_with. induction inp as [|r inp IH]; [reflexivity|].
  simpl. destruct (rerror r); [reflexivity|].
  destruct required; simpl; [|reflexivity].
  destruct (answer r); simpl; [exact IH|reflexivity].
Qed.

(** [readlineWhile(text, true)], as [form] calls it for a required
    field, returns exactly the first answer that is non-empty or
    carries an error, after skipping the empty answers before it. *)
Theorem readline_required_first (inp : list read_result) (r : read_result) (inp' : list read_result) :
  readline_while_with (CondBool true) inp = Some (r, inp') <->
  exists skipped, inp = skipped ++ r :: inp' /\
    Forall (fun s => rerror s = None /\ answer s = []) skipped /\
    (rerror r <> None \/ answer r <> []).
Proof.
  unfold readline_while_with. split.
  - induction inp as [|x inp IH]; simpl; [discriminate|].
    destruct (rerror x) eqn:Ex.
    + intros [= <- <-]. exists []. simpl. split; [reflexivity|]. split; [constructor|].
      left. congruence.
    + destruct (answer x) as [|c a] eqn:Ea; simpl.
      * intros H. destruct (IH H) as (sk & -> & Hsk & Hr).
        exists (x :: sk). split; [reflexivity|]. split; [|exact Hr].
        constructor; [split; assumption|exact Hsk].
      * intros [= <- <-]. exists []. split; [reflexivity|]. split; [constructor|].
        right. rewrite Ea. discriminate.
  - intros (sk & -> & Hsk & Hr). induction Hsk as [|x sk [Ex Ea] Hsk IH]; simpl.
    + destruct (rerror r) eqn:Er; [reflexivity|].
      destruct Hr as [Hr|Hr]; [congruence|].
      destruct (answer r); [congruence|reflexivity].
    + rewrite Ex, Ea. exact IH.
Qed.

Lemma readline_required_first_witness :
  readline_while_with (CondBool true) [typed []; typed []; typed (lit "ok")] =
    Some (typed (lit "ok"), []).
Proof.
  apply (proj2 (readline_required_first [typed []; typed []; typed (lit "ok")] (typed (lit "ok")) [])).
  exists [typed []; typed []]. split; [reflexivity|]. split.
  - repeat constructor.
  - right. discriminate.
Defined.

Definition not_yes_no (s : read_result) : Prop :=
  rerror s = None /\ answer s <> lit "y" /\ answer s <> lit "n".

Lemma accept_check_other s : answer s <> lit "y" -> answer s <> lit "n" -> accept_check s = CMsg accept_message.
Proof.
  intros Hy Hn. unfold accept_check.
  rewrite (bool_decide_eq_false_2 _ Hy), (bool_decide_eq_false_2 _ Hn). reflexivity.
Qed.

(** [readlineAccept] keeps asking until an answer is exactly ["y"] or
    ["n"] (or a read fails): the consent is [true] exactly for ["y"], a
    read error is thrown, and input without such an answer leaves it
    waiting. *)
Theorem readline_accept_first (skipped : list read_result) (r : read_result) (rest : list read_result) :
  Forall not_yes_no skipped ->
  (rerror r <> None \/ answer r = lit "y" \/ answer r = lit "n") ->
  readline_accept (skipped ++ r :: rest) =
    match rerror r with
    | Some e => AcceptThrow e rest
    | None => Accepted (bool_decide (answer r = lit "y")) rest
    end /\
  readline_accept skipped = AcceptWaiting.
Proof.
  intros Hsk Hr. unfold readline_accept, readline_while_with. split.
  - induction Hsk as [|x sk [Ex [Hy Hn]] Hsk IH]; simpl.
    + destruct (rerror r) eqn:Er; simpl; rewrite ?Er; [reflexivity|].
      destruct Hr as [Hr|[Hr|Hr]]; [congruence| |]; unfold accept_check; rewrite Hr;
        simpl; rewrite ?Er, ?Hr; reflexivity.
    + rewrite Ex, (accept_check_other x Hy Hn). exact IH.
  - induction Hsk as [|x sk [Ex [Hy Hn]] Hsk IH]; simpl; [reflexivity|].
    rewrite Ex, (accept_check_other x Hy Hn). exact IH.
Qed.

Lemma readline_accept_first_witness :
  readline_accept [typed (lit "maybe"); typed (lit "y")] = Accepted true [].
Proof.
  refine (proj1 (readline_accept_first [typed (lit "maybe")] (typed (lit "y")) [] _ _)).
  - constructor; [|constructor]. split; [reflexivity|]. split; discriminate.
  - right. left. reflexivity.
Defined.

End InputFacts.

(** ** Writing files *)

Module WriteFacts.

(** [write] without [force] never replaces an existing file unless the
    user consented with ["y"]: a successful write of an existing file
    comes from [readlineAccept] answering [true] and [writeFileSync], and
    every other outcome leaves the file system as it was. *)
Theorem write_existing_needs_consent (wfs : gmap str str -> str -> str -> option (gmap str str))
    (strict : bool) (fs : gmap str str) (inp : list read_result) (path content old : str)
    (fs' : gmap str str) (inp' : list read_result) (o : write_outcome) :
  fs !! path = Some old ->
  write wfs strict fs inp path content false = (fs', inp', o) ->
  ((exists consent, o = Written consent) ->
     o = Written true /\ readline_accept inp = Accepted true inp' /\ wfs fs path content = Some fs') /\
  ((forall consent, o <> Written consent) -> fs' = fs).
Proof.
  intros Hold. unfold write, exists_sync, check_error. rewrite Hold. simpl.
  destruct (readline_accept inp) as [[|] rest|e rest|] eqn:Ea.
  - destruct (wfs fs path content) as [fs1|] eqn:Ew; intros [= <- <- <-].
    + split; [intros _; auto|]. intros H. exfalso. exact (H true eq_refl).
    + split; [intros [c Hc]; destruct strict; discriminate|reflexivity].
  - intros [= <- <- <-]. split; [intros [c Hc]; destruct strict; discriminate|reflexivity].
  - intros [= <- <- <-]. split; [intros [c Hc]; destruct strict; discriminate|reflexivity].
  - intros [= <- <- <-]. split; [intros [c Hc]; discriminate|reflexivity].
Qed.

Lemma write_existing_needs_consent_witness :
  let fs := {[ lit "a.txt" := lit "old" ]} in
  let wfs := fun (m : gmap str str) (p c : str) => Some (<[p := c]> m) in
  ((exists consent, Written true = Written consent) ->
     Written true = Written true /\ readline_accept [typed (lit "y")] = Accepted true [] /\
     wfs fs (lit "a.txt") (lit "new") = Some (<[lit "a.txt" := lit "new"]> fs)) /\
  ((forall consent, Written true <> Written consent) -> <[lit "a.txt" := lit "new"]> fs = fs).
Proof.
  intros fs wfs.
  exact (write_existing_needs_consent wfs false fs [typed (lit "y")] (lit "a.txt") (lit "new")
           (lit "old") (<[lit "a.txt" := lit "new"]> fs) [] (Written true) eq_refl eq_refl).
Defined.

(** With [force], or for a path that does not exist, [write] asks
    nothing: no input is read, the consent stays [false], and the
    outcome is that of [writeFileSync], a failure going through
    [checkError]. *)
Theorem write_without_prompt (wfs : gmap str str -> str -> str -> option (gmap str str))
    (strict : bool) (fs : gmap str str) (inp : list read_result) (path content : str) (force : bool) :
  force = true \/ fs !! path = None ->
  write wfs strict fs inp path content force =
    match wfs fs path content with
    | Some fs' => (fs', inp, Written false)
    | None => (fs, inp, if strict then WriteThrown None WriteFailed else WriteError None WriteFailed)
    end.
Proof.
  intros H. unfold write, exists_sync.
  replace (negb force && match fs !! path with Some _ => true | None => false end) with false.
  - reflexivity.
  - destruct H as [H | H]; rewrite H; [reflexivity|]. destruct force; reflexivity.
Qed.

Lemma write_without_prompt_witness :
  write (fun m p c => Some (<[p := c]> m)) true ∅ [] (lit "a.txt") (lit "x") false =
    (<[lit "a.txt" := lit "x"]> ∅, [], Written false).
Proof. exact (write_without_prompt _ true ∅ [] (lit "a.txt") (lit "x") false (or_intror eq_refl)). Defined.

End WriteFacts.

(** ** Relative paths *)

Module PathFacts.

Lemma starts_with_app (p s : str) : starts_with (p ++ s) p = true.
Proof.
  induction p as [|c p IH]; simpl; [destruct s; reflexivity|].
  rewrite IH, Ascii.eqb_refl. reflexivity.
Qed.

(** [relative] strips the base path by plain text comparison: a path
    starting with the base text becomes ['.'] followed by the rest, even
    when the base ends inside a path component, and any other path is
    returned unchanged. *)
Theorem relative_textual_prefix (paths : gmap str str) (cwd base s path : str) :
  paths !! cwd = Some base ->
  relative paths (base ++ s) cwd = Ok (lit "." ++ s) /\
  (starts_with path base = false -> relative paths path cwd = Ok path).
Proof.
  intros Hb. unfold relative. rewrite (js_get_own paths cwd base Hb).
  cbn [js_string js_length]. split.
  - rewrite starts_with_app, drop_app_length. reflexivity.
  - intros H. rewrite H. reflexivity.
Qed.

Lemma relative_textual_prefix_witness :
  relative {[ lit "drupal" := lit "/a/b" ]} (lit "/a/bc") (lit "drupal") = Ok (lit ".c").
Proof.
  pose proof (proj1 (relative_textual_prefix {[ lit "drupal" := lit "/a/b" ]} (lit "drupal")
                       (lit "/a/b") (lit "c") [] eq_refl)) as H.
  vm_compute in H. vm_compute. exact H.
Defined.

(** When the path table has no entry for the base (no Drupal root was
    found, so [drupal] is missing) and the base name is not a property of
    [Object.prototype] (for [toString] or [constructor] the lookup gives a
    function and its text is compared instead), [relative] compares with
    the text ['undefined']: such paths make it throw a [TypeError], all
    others are returned unchanged. *)
Theorem relative_missing_base (paths : gmap str str) (cwd s path : str) :
  paths !! cwd = None -> cwd ∉ object_proto_keys ->
  relative paths (lit "undefined" ++ s) cwd = Exn TypeError /\
  (starts_with path (lit "undefined") = false -> relative paths path cwd = Ok path).
Proof.
  intros Hb Hp. unfold relative. rewrite (js_get_absent paths cwd Hb Hp). split.
  - rewrite starts_with_app. reflexivity.
  - intros H. rewrite H. reflexivity.
Qed.

Lemma relative_missing_base_witness :
  relative ∅ (lit "./web") (lit "drupal") = Ok (lit "./web").
Proof.
  exact (proj2 (relative_missing_base ∅ (lit "drupal") [] (lit "./web") eq_refl
    (bool_decide_unpack (lit "drupal" ∉ object_proto_keys) ltac:(vm_compute; exact I))) eq_refl).
Defined.

End PathFacts.

(** ** Parameter declarations and optional form fields *)

Module DeclFacts.
Import RegexFacts FormReplaceFacts.

(** A command whose [params] list holds a bare name instead of a tuple
    never gets to bind its arguments: the [params] getter assigns to its
    [const] loop variable, so every [run] of the command throws a
    [TypeError], whatever the arguments. *)
Theorem run_bare_declaration (ds : list decl) (n : str) (args : list str) :
  In (DBare n) ds -> run ds args = RunThrow TypeError.
Proof.
  intros Hin. unfold run.
  assert (H : parse_params ds = Exn TypeError).
  { induction ds as [|d ds IH]; simpl in *; [tauto|].
    destruct d as [m|name de op fb]; [reflexivity|].
    destruct Hin as [Hd|Hin]; [discriminate|].
    cbn [parse_param]. rewrite (IH Hin). reflexivity. }
  rewrite H. reflexivity.
Qed.

Lemma run_bare_declaration_witness :
  run [DTuple (lit "a") None None None; DBare (lit "b")] [lit "x"] = RunThrow TypeError.
Proof.
  apply (run_bare_declaration [DTuple (lit "a") None None None; DBare (lit "b")] (lit "b") [lit "x"]).
  simpl. right. left. reflexivity.
Defined.

(** An optional field ([?name]) with an alphanumeric [name] (so that
    the default transformer is a placeholder) and the default or an empty
    transformer accepts an empty answer without asking again, and that answer removes [name]
    from the bag (the transformer yields the empty string, so the entry
    is deleted), also when an earlier field had set it. *)
Theorem form_optional_empty (paths b : gmap str str) f fs r inp' name :
  starts_q (f_name f) = true -> tail (f_name f) = name -> key_ok name = true ->
  (f_transformer f = None \/ f_transformer f = Some []) ->
  rerror r = None -> answer r = [] ->
  form_loop paths (f :: fs) (r :: inp') b = form_loop paths fs inp' (delete name b).
Proof.
  intros Hq Hname Hkey Htr Herr Hans.
  cbn [form_loop]. rewrite Hq. cbn [negb readline_while andb]. rewrite Herr, Hname.
  replace (match f_transformer f with
           | Some t => if truthy (Some t) then t else lit "{{" ++ name ++ lit "}}"
           | None => lit "{{" ++ name ++ lit "}}"
           end) with (lit "{{" ++ name ++ lit "}}")
    by (destruct Htr as [->| ->]; reflexivity).
  assert (Hp : name <> lit "__proto__") by (intros ->; discriminate Hkey).
  rewrite (js_set_own _ _ _ Hp), default_template, replace_segments.
  - cbn [map concat render]. rewrite lookup_insert_eq, Hans. cbn [truthy app].
    rewrite delete_insert_eq, ?Herr. reflexivity.
  - simpl. rewrite Hkey, lookup_insert_eq, Hans. reflexivity.
Qed.

Lemma form_optional_empty_witness :
  form_loop ∅ [{| f_name := lit "?note"; f_prompt := lit "Note?"; f_transformer := None |}]
    [typed []] {[ lit "note" := lit "old" ]} =
  FormOk (delete (lit "note") {[ lit "note" := lit "old" ]}).
Proof.
  exact (form_optional_empty ∅ {[ lit "note" := lit "old" ]}
           {| f_name := lit "?note"; f_prompt := lit "Note?"; f_transformer := None |} []
           (typed []) [] (lit "note") eq_refl eq_refl eq_refl (or_introl eq_refl) eq_refl eq_refl).
Defined.

End DeclFacts.

(** ** Matching with the expressions of [Log] and [Node] *)

Module MatchFacts.
Import RegexFacts.

Lemma run_char_hit c r s o cs : Regex.run (AChar c :: r) (c :: s) o cs = Regex.run r s o cs.
Proof. simpl. destruct (ascii_dec c c); [reflexivity|congruence]. Qed.

Definition stops (p : ascii -> bool) (q : str) : Prop :=
  match q with ch :: _ => p ch = false | [] => True end.

Lemma span_exact p d q : forallb p d = true -> stops p q -> span p (d ++ q) = length d.
Proof.
  induction d as [|c d IH]; simpl.
  - intros _ Hq. destruct q as [|ch q]; simpl in *; [reflexivity|]. rewrite Hq. reflexivity.
  - intros H Hq. apply andb_true_iff in H as [Hc H]. rewrite Hc, IH; auto.
Qed.

(** A greedy [+] that stops right before a character outside its class
    takes the whole run on the first try. *)
Lemma run_plus_exact p r d q o cs x :
  d <> [] -> forallb p d = true -> stops p q -> Regex.run r q o cs = Some x ->
  Regex.run (APlus p :: r) (d ++ q) o cs = Some x.
Proof.
  intros Hne Hd Hq Hr. cbn [Regex.run]. rewrite (span_exact p d q Hd Hq).
  destruct d as [|c d']; [congruence|]. cbn [length countdown1 first_some].
  change (drop (S (length d')) ((c :: d') ++ q)) with (drop (length (c :: d')) ((c :: d') ++ q)).
  rewrite drop_app_length, Hr. reflexivity.
Qed.

Lemma run_plus_miss p r ch s o cs : p ch = false -> Regex.run (APlus p :: r) (ch :: s) o cs = None.
Proof. intros H. simpl. rewrite H. reflexivity. Qed.

(** Characters at which the expression cannot match are passed as text. *)
Lemma scan_text_prefix re pre X :
  (forall i, i < length pre -> Regex.run re (drop i pre ++ X) [] [] = None) ->
  scan re (pre ++ X) 0 = map PText pre ++ scan re X 0.
Proof.
  induction pre as [|c pre IH]; intros H; [reflexivity|].
  change ((c :: pre) ++ X) with (c :: (pre ++ X)). rewrite scan_0_cons.
  rewrite (H 0 ltac:(simpl; lia) : Regex.run re (c :: pre ++ X) [] [] = None).
  simpl. f_equal. apply IH.
  intros i Hi. apply (H (S i)). simpl. lia.
Qed.

Lemma drop_cons_of (p : ascii -> bool) (l : str) i :
  forallb p l = true -> i < length l -> exists ch t, drop i l = ch :: t /\ p ch = true.
Proof.
  intros H Hi. pose proof (forallb_drop p i l H) as Hd.
  destruct (drop i l) as [|ch t] eqn:E.
  - exfalso. pose proof (length_drop l i) as Hl. rewrite E in Hl. simpl in Hl. lia.
  - simpl in Hd. apply andb_true_iff in Hd as [Hc _]. eauto.
Qed.

Lemma first_match_text t ps : first_match (map PText t ++ ps) = first_match ps.
Proof. induction t; simpl; auto. Qed.

Lemma matched_text t ps : matched (map PText t ++ ps) = matched ps.
Proof. induction t; simpl; auto. Qed.

Lemma run_sgr (c0 R : str) :
  c0 <> [] -> forallb digit c0 = true ->
  Regex.run re_sgr (esc :: "["%char :: c0 ++ "m"%char :: R) [] [] = Some (R, []).
Proof.
  intros Hne Hd. unfold re_sgr. rewrite !run_char_hit.
  apply run_plus_exact; [exact Hne|exact Hd|reflexivity|].
  rewrite run_char_hit. reflexivity.
Qed.

(** [insertStyle] is meant to re-open the style of the enclosing message
    after an inserted value, but it prefixes the SGR sequence it found,
    which already starts with [ESC [], with another [ESC []: for a message
    coloured by [inColor] it appends [ESC [ ESC [ n m], and for a message
    without any escape character it returns the inserted text alone. *)
Theorem insert_style_double_introducer (cd : code) (s ins : str) :
  c_open cd <> [] -> forallb digit (c_open cd) = true ->
  insert_style (in_color cd s) ins = ins ++ [esc] ++ lit "[" ++ [esc] ++ lit "[" ++ c_open cd ++ lit "m" /\
  (forall full, forallb (fun ch => negb (Ascii.eqb ch esc)) full = true -> insert_style full ins = ins).
Proof.
  intros Hne Hd. split.
  - set (R := (match c_quote cd with Some q => if truthy (Some q) then q else [] | None => [] end) ++ s ++
               (match c_quote cd with Some q => if truthy (Some q) then q else [] | None => [] end) ++
               [esc] ++ lit "[" ++ c_close cd ++ lit "m").
    assert (E : in_color cd s = (esc :: "["%char :: c_open cd ++ ["m"%char]) ++ R).
    { unfold in_color, R. simpl. rewrite <- app_assoc. reflexivity. }
    unfold insert_style, match_all. rewrite E, (scan_match re_sgr _ R []).
    + simpl. reflexivity.
    + discriminate.
    + simpl. rewrite <- app_assoc. apply (run_sgr (c_open cd) R Hne Hd).
  - intros full Hf. unfold insert_style, match_all.
    rewrite <- (app_nil_r full), scan_text_prefix, matched_text; [reflexivity|].
    intros i Hi. rewrite ?app_nil_r in Hi |- *.
    destruct (drop_cons_of _ full i Hf Hi) as (ch & t & -> & Hch).
    unfold re_sgr. rewrite ?app_nil_r. apply run_char_miss.
    intros <-. rewrite Ascii.eqb_refl in Hch. discriminate.
Qed.

Lemma insert_style_double_introducer_witness :
  insert_style (in_color {| c_open := lit "94"; c_close := lit "39"; c_quote := None |} (lit "Note"))
    (lit "v") =
  lit "v" ++ [esc] ++ lit "[" ++ [esc] ++ lit "[" ++ lit "94" ++ lit "m".
Proof.
  exact (proj1 (insert_style_double_introducer {| c_open := lit "94"; c_close := lit "39"; c_quote := None |}
                  (lit "Note") (lit "v") ltac:(discriminate) eq_refl)).
Defined.

Lemma run_version_at (a b c post : str) :
  a <> [] -> b <> [] -> c <> [] ->
  forallb digit a = true -> forallb digit b = true -> forallb digit c = true -> stops digit post ->
  Regex.run re_version (a ++ "."%char :: b ++ "."%char :: c ++ post) [] [] =
    Some (post, [(3, c); (2, b); (1, a)]).
Proof.
  intros Ha Hb Hc Da Db Dc Hp. unfold re_version.
  rewrite run_open. apply run_plus_exact; [exact Ha|exact Da|reflexivity|].
  rewrite run_close. cbn [assoc Nat.eqb]. rewrite close_take, run_char_hit, run_open.
  apply run_plus_exact; [exact Hb|exact Db|reflexivity|].
  rewrite run_close. cbn [assoc Nat.eqb]. rewrite close_take, run_char_hit, run_open.
  apply run_plus_exact; [exact Hc|exact Dc|exact Hp|].
  rewrite run_close. cbn [assoc Nat.eqb]. rewrite close_take. reflexivity.
Qed.

(** [Node.version] reads the first [digits.digits.digits] in the output
    of [node -v]: after text without digits, the three numbers are
    returned as [major], [minor] and [patch] and [full] is their dotted
    text, whatever follows; an output without any digit makes
    [matches[0]] throw a [TypeError]. *)
Theorem node_version_parse (pre a b c post : str) :
  forallb (fun ch => negb (digit ch)) pre = true ->
  a <> [] -> b <> [] -> c <> [] ->
  forallb digit a = true -> forallb digit b = true -> forallb digit c = true -> stops digit post ->
  node_version (pre ++ a ++ "."%char :: b ++ "."%char :: c ++ post) =
    Ok {| v_full := a ++ "."%char :: b ++ "."%char :: c; v_major := a; v_minor := b; v_patch := c |} /\
  (forall out, forallb (fun ch => negb (digit ch)) out = true -> node_version out = Exn TypeError).
Proof.
  assert (Hnd : forall t i, forallb (fun ch => negb (digit ch)) t = true -> i < length t ->
                forall X, Regex.run re_version (drop i t ++ X) [] [] = None).
  { intros t i Ht Hi X. destruct (drop_cons_of _ t i Ht Hi) as (ch & u & -> & Hch).
    unfold re_version. simpl app. rewrite run_open. apply run_plus_miss.
    destruct (digit ch); [discriminate|reflexivity]. }
  intros Hpre Ha Hb Hc Da Db Dc Hp. split.
  - unfold node_version, exec. rewrite scan_text_prefix by (intros i Hi; apply Hnd; assumption).
    rewrite first_match_text.
    assert (E : a ++ "."%char :: b ++ "."%char :: c ++ post = (a ++ "."%char :: b ++ "."%char :: c) ++ post).
    { rewrite <- app_assoc. simpl. rewrite <- app_assoc. reflexivity. }
    rewrite E, (scan_match re_version _ post [(3, c); (2, b); (1, a)]).
    + reflexivity.
    + destruct a; [congruence|discriminate].
    + rewrite <- E. apply run_version_at; assumption.
  - intros out Ho. unfold node_version, exec.
    rewrite <- (app_nil_r out), scan_text_prefix, first_match_text; [reflexivity|].
    intros i Hi. rewrite ?app_nil_r in Hi. apply Hnd; assumption.
Qed.

Lemma node_version_parse_witness :
  node_version (lit "v18.12.1" ++ ["010"%char]) =
    Ok {| v_full := lit "18.12.1"; v_major := lit "18"; v_minor := lit "12"; v_patch := lit "1" |}.
Proof.
  exact (proj1 (node_version_parse (lit "v") (lit "18") (lit "12") (lit "1") ["010"%char]
                  eq_refl ltac:(discriminate) ltac:(discriminate) ltac:(discriminate)
                  eq_refl eq_refl eq_refl eq_refl)).
Defined.

End MatchFacts.

(* ================================================================== *)
(** ** Dispatch of an unknown command *)

Module DispatchFacts.

(** Past the declared parameters, the loop only appends the raw
    arguments to [args._]. *)
Lemma bind_loop_tail (ps : list param) (args : list str) n i obj w l :
  length ps <= i -> obj !! overflow_key = Some (AArr l) ->
  bind_loop ps args i n obj w =
    Bound (<[overflow_key := AArr (l ++ map (fun j => default [] (args !! j)) (seq i n))]> obj) w.
Proof.
  revert i obj l. induction n as [|n IH]; intros i obj l Hi Hobj; simpl.
  - rewrite app_nil_r, insert_id by exact Hobj. reflexivity.
  - rewrite (lookup_ge_None_2 ps i Hi), Hobj.
    rewrite (IH (S i) _ (l ++ [default [] (args !! i)])); [| lia | apply lookup_insert_eq].
    rewrite insert_insert_eq, <- app_assoc. reflexivity.
Qed.

Lemma map_lookup_seq (args : list str) i :
  map (fun j => default [] (args !! j)) (seq i (length args - i)) = drop i args.
Proof.
  revert i. induction args as [|a args IH]; intros i; [destruct i; reflexivity|].
  destruct i as [|i].
  - simpl. rewrite <- seq_shift, map_map. simpl.
    f_equal. pose proof (IH 0) as H0. rewrite Nat.sub_0_r in H0. exact H0.
  - simpl. rewrite <- seq_shift, map_map. simpl. apply IH.
Qed.

Definition list_param : param :=
  {| p_name := lit "type"; p_required := false; p_description := Some (lit "The information");
     p_options := Some (map lit ["full"; "simple"; "usage"; "format"]);
     p_fallback := Some (lit "format"); p_usage := lit "[full|simple|usage|format=format]" |}.

Lemma parse_list_decls : parse_params list_decls = Ok [list_param].
Proof. vm_compute. reflexivity. Qed.

(** [execute] with a name that is neither a registered command nor a
    property of [Object.prototype] runs the command registered as [list]
    with the remaining arguments and attaches the error of
    [Command [@command] not found!]. When that is the built-in [list],
    it gets its [type] from the first remaining argument, or ["format"]
    when that is missing or empty, every further argument lands in
    [args._], and it never stops for a missing argument; when an
    extension registered a shell script [list.sh] instead, that script
    runs with no parameters bound. *)
Theorem execute_unknown_runs_list (module_params : str -> list decl) (srcs : list source)
    (name : str) (rest : list str) :
  resolve srcs name = None -> name ∉ object_proto_keys ->
  (resolve srcs (lit "list") = Some (EFunc 5) ->
   exists obj,
     system_execute module_params srcs (name :: rest) =
       ExecList (RunBody obj) (LoshError not_found_message) /\
     obj !! lit "type" =
       Some (AStr (Some (match rest with
                         | x :: _ => if truthy (Some x) then x else lit "format"
                         | [] => lit "format"
                         end))) /\
     obj !! overflow_key = Some (AArr (drop 1 rest))) /\
  (forall p, resolve srcs (lit "list") = Some (EPath p) -> extname p = lit ".sh" ->
   system_execute module_params srcs (name :: rest) =
     ExecList (RunBody init_args) (LoshError not_found_message)).
Proof.
  intros Hres Hkey. unfold system_execute. rewrite Hres, bool_decide_eq_false_2 by exact Hkey.
  simpl orb. cbv iota. unfold run_list. split.
  - intros Hl. rewrite Hl. change (entry_params module_params (EFunc 5)) with list_decls.
    unfold run. rewrite parse_list_decls. unfold bind. simpl length.
    cbv iota beta. simpl Nat.eqb. cbv iota.
    replace (if length rest <? 1 then 1 else length rest) with (S (length rest - 1))
      by (destruct (Nat.ltb_spec (length rest) 1); lia).
    set (v := resolve_arg list_param (rest !! 0)).
    assert (Hv : v = Some (match rest with
                           | x :: _ => if truthy (Some x) then x else lit "format"
                           | [] => lit "format"
                           end)).
    { unfold v, resolve_arg. destruct rest as [|x rest]; [reflexivity|]. simpl.
      destruct x; reflexivity. }
    cbn [bind_loop]. change ([list_param] !! 0) with (Some list_param). cbv iota zeta.
    fold v. change (p_required list_param && is_null v) with false. cbv iota.
    rewrite (bind_loop_tail [list_param] rest _ 1 _ _ []); [| simpl; lia |].
    + eexists. split; [reflexivity|]. split.
      * rewrite lookup_insert_ne by discriminate. rewrite lookup_insert_eq, Hv. reflexivity.
      * rewrite lookup_insert_eq. simpl app. rewrite map_lookup_seq. reflexivity.
    + rewrite lookup_insert_ne by discriminate. reflexivity.
  - intros p Hl Hsh. rewrite Hl. unfold entry_params.
    rewrite Hsh, bool_decide_eq_false_2 by (vm_compute; discriminate). reflexivity.
Qed.

Lemma execute_unknown_runs_list_witness :
  exists obj,
    system_execute (fun _ => []) builtins [lit "foo"; lit "simple"; lit "x"] =
      ExecList (RunBody obj) (LoshError not_found_message) /\
    obj !! lit "type" = Some (AStr (Some (lit "simple"))) /\
    obj !! overflow_key = Some (AArr [lit "x"]).
Proof.
  exact (proj1 (execute_unknown_runs_list (fun _ => []) builtins (lit "foo") [lit "simple"; lit "x"]
           ltac:(vm_compute; reflexivity)
           (bool_decide_unpack (lit "foo" ∉ object_proto_keys) ltac:(vm_compute; exact I)))
           ltac:(vm_compute; reflexivity)).
Defined.

End DispatchFacts.

(* ================================================================== *)
(** ** Script files of a command directory *)

Module ScriptFileFacts.

Lemma last_dot_at_app (x y : str) i f :
  last_dot_at (x ++ y) i f = last_dot_at y (i + length x) (last_dot_at x i f).
Proof.
  revert i f. induction x as [|c x IH]; intros i f; simpl.
  - rewrite Nat.add_0_r. reflexivity.
  - rewrite IH. f_equal. lia.
Qed.

Lemma extname_script (s e : str) :
  s <> [] -> e = lit ".js" \/ e = lit ".sh" -> extname (s ++ e) = e.
Proof.
  intros Hs He. unfold extname. rewrite last_dot_at_app.
  assert (Hd : last_dot_at e (0 + length s) (last_dot_at s 0 None) = Some (length s))
    by (destruct He as [-> | ->]; reflexivity).
  rewrite Hd, take_app_length, drop_app_length.
  destruct (forallb _ s); [|reflexivity].
  assert (Hl : Nat.eqb (length s) 0 = false) by (destruct s; [congruence|reflexivity]).
  rewrite Hl, bool_decide_eq_false_2; [reflexivity|].
  intros E. apply (f_equal length) in E. rewrite length_app in E.
  destruct He as [-> | ->]; simpl in E; lia.
Qed.

(** A file [name.js] or [name.sh] of a command directory, with a
    non-empty [name], registers the command [name] with the path joined
    from the directory and the file, replacing an earlier entry of that
    name; the hidden files [.js] and [.sh] register nothing. *)
Theorem register_script_file (path : str) (cmds : gmap str entry) (s e : str) :
  s <> [] -> e = lit ".js" \/ e = lit ".sh" ->
  register_file path cmds (s ++ e) = <[s := EPath (path_join path (s ++ e))]> cmds /\
  register_file path cmds e = cmds.
Proof.
  intros Hs He. split.
  - unfold register_file. rewrite extname_script by assumption.
    rewrite RegexFacts.close_take.
    destruct He as [-> | ->]; reflexivity.
  - destruct He as [-> | ->]; reflexivity.
Qed.

Lemma register_script_file_witness :
  register_file (lit "/ext") ∅ (lit "deploy.sh") =
    <[lit "deploy" := EPath (lit "/ext/deploy.sh")]> ∅.
Proof.
  exact (proj1 (register_script_file (lit "/ext") ∅ (lit "deploy") (lit ".sh")
                  ltac:(discriminate) (or_intror eq_refl))).
Defined.

End ScriptFileFacts.

(* ================================================================== *)
(** ** Rows of [Drush.sqlSelect] *)

Module SqlFacts.

(** No character of the text is [h]. *)
Definition avoids (h : ascii) (x : str) : bool := forallb (fun c => negb (Ascii.eqb h c)) x.

Lemma split_go_plain (h : ascii) (sep' x rest cur : str) :
  avoids h x = true ->
  split_go (h :: sep') (x ++ rest) 0 cur = split_go (h :: sep') rest 0 (rev x ++ cur).
Proof.
  revert cur. induction x as [|c x IH]; intros cur Hx; [reflexivity|].
  simpl in Hx. apply andb_true_iff in Hx as [Hc Hx]. apply negb_true_iff in Hc.
  simpl. rewrite Hc. simpl. rewrite IH by exact Hx. rewrite <- app_assoc. reflexivity.
Qed.

Lemma split_go_skip (sep y rest cur : str) :
  split_go sep (y ++ rest) (length y) cur = split_go sep rest 0 cur.
Proof. induction y as [|c y IH]; simpl; auto. Qed.

Lemma split_go_sep (h : ascii) (sep' rest cur : str) :
  split_go (h :: sep') ((h :: sep') ++ rest) 0 cur = rev cur :: split_go (h :: sep') rest 0 [].
Proof.
  change ((h :: sep') ++ rest) with (h :: (sep' ++ rest)). simpl.
  rewrite Ascii.eqb_refl, PathFacts.starts_with_app. simpl. rewrite split_go_skip. reflexivity.
Qed.

(** [split] undoes [join] for pieces without the separator's first
    character. *)
Lemma split_join (h : ascii) (sep' : str) (l : list str) :
  l <> [] -> forallb (avoids h) l = true -> split (join (h :: sep') l) (h :: sep') = l.
Proof.
  unfold split. destruct l as [|x l]; [congruence|]. intros _.
  revert x. induction l as [|y l IH]; intros x Hl.
  - simpl in Hl. rewrite andb_true_r in Hl. simpl join.
    rewrite <- (app_nil_r x) at 1. rewrite split_go_plain by exact Hl.
    simpl. rewrite app_nil_r, rev_involutive. reflexivity.
  - simpl in Hl. apply andb_true_iff in Hl as [Hx Hl].
    change (join (h :: sep') (x :: y :: l)) with (x ++ (h :: sep') ++ join (h :: sep') (y :: l)).
    rewrite split_go_plain by exact Hx. rewrite app_nil_r, split_go_sep, rev_involutive.
    rewrite IH by exact Hl. reflexivity.
Qed.

Lemma join_snoc_empty (sep : str) (l : list str) :
  l <> [] -> join sep (l ++ [[]]) = join sep l ++ sep.
Proof.
  intros Hl. induction l as [|x l IH]; [congruence|].
  destruct l as [|y l].
  - simpl. rewrite app_nil_r. reflexivity.
  - change ((x :: y :: l) ++ [[]]) with (x :: ((y :: l) ++ [[]])).
    change (join sep (x :: (y :: l) ++ [[]])) with (x ++ sep ++ join sep ((y :: l) ++ [[]])).
    rewrite IH by discriminate. simpl. rewrite <- !app_assoc. reflexivity.
Qed.

Lemma avoids_join (h : ascii) (sep : str) (l : list str) :
  avoids h sep = true -> forallb (avoids h) l = true -> avoids h (join sep l) = true.
Proof.
  intros Hs. induction l as [|x l IH]; intros Hl; [reflexivity|].
  simpl in Hl. apply andb_true_iff in Hl as [Hx Hl].
  destruct l as [|y l]; [exact Hx|].
  change (join sep (x :: y :: l)) with (x ++ sep ++ join sep (y :: l)).
  unfold avoids in *. rewrite !forallb_app, Hx, Hs, IH by exact Hl. reflexivity.
Qed.

Definition nonspace (c : ascii) : bool := negb (js_space c).

Lemma drop_space_keeps (s : str) : existsb nonspace s = true -> existsb nonspace (drop_space s) = true.
Proof.
  induction s as [|c s IH]; simpl; [discriminate|]. intros H.
  unfold nonspace at 1 in H. destruct (js_space c) eqn:E; simpl in H |- *.
  - apply IH. exact H.
  - unfold nonspace at 1. rewrite E. reflexivity.
Qed.

Lemma existsb_rev_nonspace (s : str) : existsb nonspace (rev s) = existsb nonspace s.
Proof.
  induction s as [|c s IH]; [reflexivity|].
  simpl. rewrite existsb_app, IH. simpl. rewrite orb_false_r, orb_comm. reflexivity.
Qed.

Lemma trim_nonblank (s : str) : existsb nonspace s = true -> Nat.eqb (length (trim s)) 0 = false.
Proof.
  intros H. unfold trim.
  assert (Ht : existsb nonspace (rev (drop_space (rev (drop_space s)))) = true).
  { rewrite existsb_rev_nonspace. apply drop_space_keeps.
    rewrite existsb_rev_nonspace. apply drop_space_keeps. exact H. }
  destruct (rev (drop_space (rev (drop_space s)))); [discriminate|reflexivity].
Qed.

Lemma existsb_join (sep : str) (l : list str) :
  existsb (existsb nonspace) l = true -> existsb nonspace (join sep l) = true.
Proof.
  induction l as [|x l IH]; simpl; [discriminate|].
  intros H. destruct l as [|y l].
  - rewrite orb_false_r in H. exact H.
  - change (join sep (x :: y :: l)) with (x ++ sep ++ join sep (y :: l)).
    rewrite !existsb_app. apply orb_true_iff in H as [H | H].
    + rewrite H. reflexivity.
    + rewrite (IH H). rewrite !orb_true_r. reflexivity.
Qed.

(** A cell of [drush sql-cli] output: no tab, carriage return or line
    feed. *)
Definition plain_cell (x : str) : bool :=
  avoids "009"%char x && avoids "010"%char x && avoids "013"%char x.

Definition data_row (r : list str) : bool :=
  forallb plain_cell r && existsb (existsb nonspace) r.

Lemma plain_avoids_tab (l : list str) : forallb plain_cell l = true -> forallb (avoids "009"%char) l = true.
Proof.
  induction l as [|x l IH]; simpl; auto.
  intros H. apply andb_true_iff in H as [Hx Hl]. unfold plain_cell in Hx.
  apply andb_true_iff in Hx as [Hx _]. apply andb_true_iff in Hx as [Hx _].
  rewrite Hx, IH by exact Hl. reflexivity.
Qed.

Lemma plain_avoids_nl (win : bool) (x : str) :
  plain_cell x = true -> avoids (hd "010"%char (newline win)) x = true.
Proof.
  unfold plain_cell. intros H. apply andb_true_iff in H as [H H13].
  apply andb_true_iff in H as [_ H10]. destruct win; assumption.
Qed.

Lemma line_avoids_nl (win : bool) (r : list str) :
  forallb plain_cell r = true -> avoids (hd "010"%char (newline win)) (join tab r) = true.
Proof.
  intros H. apply avoids_join; [destruct win; reflexivity|].
  induction r as [|x r IH]; [reflexivity|].
  simpl in H |- *. apply andb_true_iff in H as [Hx Hr].
  rewrite plain_avoids_nl by exact Hx. apply IH. exact Hr.
Qed.

Lemma newline_cons (win : bool) : newline win = hd "010"%char (newline win) :: tl (newline win).
Proof. destruct win; reflexivity. Qed.

Lemma fold_rows (hdr : list str) (rs : list (list str)) acc :
  forallb data_row rs = true ->
  fold_left (fun rows line =>
      if Nat.eqb (length (trim line)) 0 then rows
      else rows ++ [row_of hdr (split line tab)])
    (map (join tab) rs) acc =
  acc ++ map (row_of hdr) rs.
Proof.
  revert acc. induction rs as [|r rs IH]; intros acc Hrs; simpl; [rewrite app_nil_r; reflexivity|].
  apply andb_true_iff in Hrs as [Hr Hrs]. unfold data_row in Hr.
  apply andb_true_iff in Hr as [Hp He].
  rewrite trim_nonblank by (apply existsb_join; exact He).
  rewrite (split_join "009"%char []); [| destruct r; [discriminate|discriminate] | apply plain_avoids_tab; exact Hp].
  rewrite IH by exact Hrs. rewrite <- app_assoc. reflexivity.
Qed.

(** [sqlSelect] reads a table back: for output made of a header line
    and one line per row, the cells separated by tabs and the lines by
    the platform's line separator, optionally ending with one, where no
    cell holds a tab or a line break and every row has a non-blank cell,
    the result holds one object per row, in order, built from the
    header's column names and that row's cells. *)
Theorem sql_select_table (win trailing : bool) (h : list str) (rs : list (list str)) :
  h <> [] -> forallb plain_cell h = true -> forallb data_row rs = true ->
  sql_select win (join (newline win) (join tab h :: map (join tab) rs) ++
                  (if trailing then newline win else [])) =
    map (row_of h) rs.
Proof.
  intros Hh Hph Hrs.
  assert (Hlines : forallb (avoids (hd "010"%char (newline win))) (join tab h :: map (join tab) rs) = true).
  { simpl. rewrite line_avoids_nl by exact Hph. simpl.
    clear Hh Hph. induction rs as [|r rs IH]; [reflexivity|].
    simpl in Hrs |- *. apply andb_true_iff in Hrs as [Hr Hrs].
    unfold data_row in Hr. apply andb_true_iff in Hr as [Hp _].
    rewrite line_avoids_nl by exact Hp. apply IH. exact Hrs. }
  assert (Hhs : split (join tab h) tab = h).
  { apply (split_join "009"%char []); [exact Hh|]. apply plain_avoids_tab. exact Hph. }
  unfold sql_select. destruct trailing.
  - rewrite <- join_snoc_empty by discriminate.
    rewrite newline_cons, split_join.
    + rewrite <- app_comm_cons. cbv iota zeta.
      rewrite Hhs, fold_left_app, fold_rows by exact Hrs. reflexivity.
    + simpl. discriminate.
    + rewrite forallb_app, Hlines. reflexivity.
  - rewrite app_nil_r, newline_cons, split_join; [| discriminate | exact Hlines].
    cbv zeta. rewrite Hhs, fold_rows by exact Hrs. reflexivity.
Qed.

Lemma sql_select_table_witness :
  sql_select false (lit "nid" ++ tab ++ lit "title" ++ ["010"%char] ++
                    lit "1" ++ tab ++ lit "Home" ++ ["010"%char]) =
    [row_of [lit "nid"; lit "title"] [lit "1"; lit "Home"]].
Proof.
  exact (sql_select_table false true [lit "nid"; lit "title"] [[lit "1"; lit "Home"]]
           ltac:(discriminate) eq_refl eq_refl).
Defined.

Definition row_step (header result : list str) (row : gmap str (option str)) (i : nat) :=
  match header !! i with
  | Some h => if bool_decide (h = lit "__proto__") then row else <[h := result !! i]> row
  | None => row
  end.

Lemma row_step_other (header result : list str) idx row k :
  (forall i, In i idx -> header !! i <> Some k) ->
  fold_left (row_step header result) idx row !! k = row !! k.
Proof.
  revert row. induction idx as [|i idx IH]; intros row H; [reflexivity|].
  simpl. rewrite IH by (intros j Hj; apply H; right; exact Hj).
  unfold row_step. destruct (header !! i) as [h|] eqn:E; [|reflexivity].
  destruct (bool_decide _); [reflexivity|].
  apply lookup_insert_ne. intros ->. apply (H i); [left; reflexivity|exact E].
Qed.

Lemma row_step_proto (header result : list str) idx row :
  fold_left (row_step header result) idx row !! lit "__proto__" = row !! lit "__proto__".
Proof.
  revert row. induction idx as [|i idx IH]; intros row; [reflexivity|].
  simpl. rewrite IH. unfold row_step. destruct (header !! i) as [h|]; [|reflexivity].
  destruct (bool_decide (h = lit "__proto__")) eqn:E; [reflexivity|].
  apply bool_decide_eq_false in E. apply lookup_insert_ne. exact E.
Qed.

(** A row object built by [sqlSelect] from distinct column names: the
    column [k] at position [i] holds the [i]-th cell, or [undefined]
    when the line has fewer cells; a name that is not a column is no
    key of the row, and a column named [__proto__] is never stored. *)
Theorem row_of_columns (header result : list str) :
  NoDup header ->
  (forall i k, header !! i = Some k -> k <> lit "__proto__" ->
     row_of header result !! k = Some (result !! i)) /\
  (forall k, k ∉ header -> row_of header result !! k = None) /\
  row_of header result !! lit "__proto__" = None.
Proof.
  intros Hnd. unfold row_of. fold (row_step header result). split; [|split].
  - intros i k Hi Hk.
    assert (Hlt : i < length header) by (apply lookup_lt_is_Some; eauto).
    replace (length header) with (i + S (length header - S i)) by lia.
    rewrite seq_app, fold_left_app. simpl seq. simpl fold_left.
    rewrite row_step_other.
    + unfold row_step at 1. rewrite Hi, bool_decide_eq_false_2 by exact Hk.
      apply lookup_insert_eq.
    + intros j Hj Hjk. apply in_seq in Hj.
      assert (j = i) by (eapply NoDup_lookup; eauto). lia.
  - intros k Hk. rewrite row_step_other; [reflexivity|].
    intros i _ Hi. apply Hk. eapply list_elem_of_lookup_2. exact Hi.
  - rewrite row_step_proto. reflexivity.
Qed.

Lemma row_of_columns_witness :
  row_of [lit "nid"; lit "title"] [lit "1"] !! lit "title" = Some None.
Proof.
  apply (proj1 (row_of_columns [lit "nid"; lit "title"] [lit "1"]
                  ltac:(apply NoDup_cons_2; [vm_compute; intros H; inversion H as [|? ? ? H']; inversion H'
                                            | apply NoDup_singleton])) 1).
  - reflexivity.
  - discriminate.
Defined.

End SqlFacts.

(* ================================================================== *)
(** ** Errors are printed once *)

Module LogFacts.

Section Once.
Variables (replace : str -> log_ph -> str) (new_stack : str -> str).

Lemma flag_insert (f : gmap nat bool) (e : js_err) : flag (<[e_id e := true]> f) e = true.
Proof. unfold flag. rewrite lookup_insert_eq. reflexivity. Qed.

Lemma log_error_marks (st : log_state) (m : log_msg) (ph : log_ph) :
  flag (printed (fst (log_error replace new_stack st m ph))) (snd (log_error replace new_stack st m ph)) = true.
Proof.
  destruct m as [t|e|e]; simpl.
  - unfold flag. simpl. rewrite lookup_insert_eq. reflexivity.
  - destruct (flag (printed st) e) eqn:E; simpl; [exact E|apply flag_insert].
  - destruct (flag (printed st) e) eqn:E; simpl; [exact E|apply flag_insert].
Qed.

Lemma log_failed_marks (st : log_state) (m : log_msg) (ph : log_ph) full :
  flag (printed (fst (log_failed replace new_stack st m ph full)))
       (snd (log_failed replace new_stack st m ph full)) = true.
Proof.
  destruct m as [t|e|e]; simpl.
  - unfold flag. simpl. rewrite lookup_insert_eq. reflexivity.
  - destruct (flag (printed st) e) eqn:E; simpl; [exact E|apply flag_insert].
  - destruct (flag (printed st) e) eqn:E; simpl; [exact E|apply flag_insert].
Qed.

Lemma printed_silent (st : log_state) (m : log_msg) (e : js_err) ph full :
  get_error m = Some e -> flag (printed st) e = true ->
  log_error replace new_stack st m ph = (st, e) /\ log_failed replace new_stack st m ph full = (st, e).
Proof.
  intros Hm Hp. destruct m as [t|e0|e0]; simpl in Hm; try discriminate;
    injection Hm as ->; simpl; rewrite Hp; split; reflexivity.
Qed.

(** The error returned by [Log.error] or [Log.failed] is marked
    [printed]: passing it again to either, as an [Error] or as the
    [error] of a result object, writes nothing and returns it; so an
    error object reaches the console at most once. *)
Theorem logged_error_not_repeated (st : log_state) (m m' : log_msg) (ph ph' : log_ph) (full full' : bool) :
  (get_error m' = Some (snd (log_error replace new_stack st m ph)) ->
   let '(st1, e) := log_error replace new_stack st m ph in
   log_error replace new_stack st1 m' ph' = (st1, e) /\
   log_failed replace new_stack st1 m' ph' full' = (st1, e)) /\
  (get_error m' = Some (snd (log_failed replace new_stack st m ph full)) ->
   let '(st1, e) := log_failed replace new_stack st m ph full in
   log_error replace new_stack st1 m' ph' = (st1, e) /\
   log_failed replace new_stack st1 m' ph' full' = (st1, e)).
Proof.
  split; intros Hm.
  - pose proof (log_error_marks st m ph) as Hp.
    destruct (log_error replace new_stack st m ph) as [st1 e]. simpl in *.
    apply printed_silent; assumption.
  - pose proof (log_failed_marks st m ph full) as Hp.
    destruct (log_failed replace new_stack st m ph full) as [st1 e]. simpl in *.
    apply printed_silent; assumption.
Qed.

End Once.

Definition empty_log : log_state :=
  {| printed := ∅; stricted := ∅; console := []; next_id := 0 |}.

Lemma logged_error_not_repeated_witness :
  let '(st1, e) := log_error (fun s _ => s) (fun _ => []) empty_log (MText (lit "No consent. Abort!")) (PhObj []) in
  log_failed (fun s _ => s) (fun _ => []) st1 (MError e) (PhObj []) false = (st1, e).
Proof.
  exact (proj2 (proj1 (logged_error_not_repeated (fun s _ => s) (fun _ => []) empty_log
           (MText (lit "No consent. Abort!")) (MError (snd (log_error (fun s _ => s) (fun _ => []) empty_log
              (MText (lit "No consent. Abort!")) (PhObj []))))
           (PhObj []) (PhObj []) false false) eq_refl)).
Defined.

Section Strict.
Variables (replace : str -> log_ph -> str) (new_stack : str -> str).

(** A result object carrying an error made by [Log.error] (as [write]
    builds one on a refused overwrite), given to [checkError]: without
    strict mode it is returned and nothing more is printed; in strict
    mode it is flagged [stricted] and thrown, and a later [Log.failed] of
    the thrown value prints nothing, so the note [Abort caused by strict
    mode.] never appears for it. *)
Theorem check_error_logged_once (st : log_state) (t : str) (ph ph' : log_ph) (strict full : bool) :
  let '(st1, e) := log_error replace new_stack st (MText t) ph in
  match check_error_log replace new_stack st1 strict (MHolder e) with
  | (st2, inl r) => strict = false /\ r = MHolder e /\ st2 = st1
  | (st2, inr r) =>
      strict = true /\ r = MHolder e /\ console st2 = console st1 /\ flag (stricted st2) e = true /\
      log_failed replace new_stack st2 r ph' full = (st2, e)
  end.
Proof.
  pose proof (log_error_marks replace new_stack st (MText t) ph) as Hp.
  destruct (log_error replace new_stack st (MText t) ph) as [st1 e]. simpl in Hp.
  unfold check_error_log. simpl get_error. destruct strict.
  - split; [reflexivity|]. split; [reflexivity|]. split; [reflexivity|]. split.
    + apply flag_insert.
    + simpl. unfold flag at 1. simpl. unfold flag in Hp. destruct (printed st1 !! e_id e) as [[|]|];
        try discriminate. reflexivity.
  - split; [reflexivity|]. split; [reflexivity|]. simpl. rewrite Hp. reflexivity.
Qed.

End Strict.

Lemma check_error_logged_once_witness :
  let '(st1, e) := log_error (fun s _ => s) (fun _ => []) empty_log
                     (MText (lit "No user consent to overwrite. Abort!")) (PhObj []) in
  match check_error_log (fun s _ => s) (fun _ => []) st1 true (MHolder e) with
  | (st2, inl r) => False
  | (st2, inr r) => log_failed (fun s _ => s) (fun _ => []) st2 r (PhObj []) false = (st2, e)
  end.
Proof.
  pose proof (check_error_logged_once (fun s _ => s) (fun _ => []) empty_log
                (lit "No user consent to overwrite. Abort!") (PhObj []) (PhObj []) true false) as H.
  destruct (log_error _ _ _ _ _) as [st1 e].
  destruct (check_error_log _ _ st1 true (MHolder e)) as [st2 [r|r]].
  - destruct H as [H _]. discriminate.
  - exact (proj2 (proj2 (proj2 (proj2 H)))).
Defined.

End LogFacts.
